(** * A Bayeux long-polling client (client.go)

    The client of client.go is embedded as state-passing functions over a
    [World]: the [Client] struct itself, the heap cells that [send] hands out
    pointers to, the log of HTTP POSTs, the log output and the deliveries made
    on the callers' output channels.

    - Pointers are addresses into [heap]; [send] keeps and queues the address
      of its loop variable, so the aliasing between the reply and the queued
      messages is part of the model.
    - A function of the client is a function [World → result A]: it returns a
      value and a new world, or panics.
    - The program is sequential at the grain of one operation: a call of the
      facade, or one turn of the worker's [for { select { ... } }] loop, runs
      to completion.  The mutex therefore has no counterpart, and [run]
      interleaves callers and worker turns in any order.
    - The queue [c.messages] is a list without its capacity of 100, and an
      output channel is the log of what was sent on it: a send that would
      block, or panic on a closed channel, is outside the model.  Time is not
      modelled: the timer case can always be taken.
    - The HTTP transport, encoding/json and the pattern library are
      collaborators: the transport is a function from the POSTs so far to an
      outcome, a body is given by what reading and decoding make of it, and
      the pattern library is an interface. *)

From Stdlib Require Import Ascii String ZArith.
From stdpp Require Import base strings list gmap fin_maps pretty.

Open Scope string_scope.

(** ** Constants *)

Definition VERSION : string := "1.0".
Definition MINIMUM_VERSION : string := "1.0".

(** ** Wire data *)

(** A value of type [interface{}], as far as the client is concerned: it only
    passes such values to and from encoding/json. *)
Inductive any_value :=
| nil_value
| json_value (text : string)
| unsupported_value (why : string).

Record Message := mkMessage {
  Channel : string; Data : string; Id : string; ClientId : string;
  Extension : any_value }.

Record request := mkRequest {
  req_Channel : string; req_Data : string; req_Id : string;
  req_ClientId : string; req_Extension : any_value;
  req_Version : string; req_MinimumVersion : string;
  req_SupportedConnectionTypes : list string;
  req_ConnectionType : string; req_Subscription : string }.

Record advice := mkAdvice {
  Reconnect : string; adv_Timeout : Z; Interval : Z }.

(** [metaMessage] embeds [Message]; the embedded struct is the field
    [message]. *)
Record metaMessage := mkMeta {
  message : Message;
  Version : string; MinimumVersion : string;
  SupportedConnectionTypes : list string; ConnectionType : string;
  Timestamp : string; Successful : bool; Subscription : string;
  Error : string; Advice : option advice }.

Definition zero_Message : Message := mkMessage "" "" "" "" nil_value.
Definition zero_metaMessage : metaMessage :=
  mkMeta zero_Message "" "" [] "" "" false "" "" None.

#[global] Instance metaMessage_inhabited : Inhabited metaMessage :=
  populate zero_metaMessage.

(** ** Errors

    Every error the client returns is either built here ([errors.New],
    [fmt.Errorf]) or handed through from a library call. *)
Inductive error :=
| errors_New (text : string)
| Errorf_Invalid_pattern (err : string)
| Errorf_HTTP_Status (StatusCode : Z)
| json_Marshal_error (err : string)
| http_Post_error (err : string)
| ioutil_ReadAll_error (err : string)
| json_Unmarshal_error (err : string).

(** The text of [err.Error()]. *)
Definition error_text (e : error) : string :=
  match e with
  | errors_New text => text
  | Errorf_Invalid_pattern err => "Invalid pattern: " ++ err
  | Errorf_HTTP_Status code => "HTTP Status " ++ pretty code
  | json_Marshal_error err | http_Post_error err
  | ioutil_ReadAll_error err | json_Unmarshal_error err => err
  end.

(** ** Collaborators *)

(** The pattern library (ohmyglob): [Compile(pattern, nil)] gives a matcher
    or an error; a matcher has [String()] and [MatchString(s)]. *)
Class GlobLib := {
  Glob : Type;
  ohmyglob_Compile : string → Glob + string;
  Glob_String : Glob → string;
  Glob_MatchString : Glob → string → bool }.

(** A response body is represented by what [ioutil.ReadAll] and then
    [json.Unmarshal(data, &messages)] make of it. *)
Inductive body :=
| unreadable (err : string)
| malformed (err : string)
| batch (messages : list metaMessage).

(** The outcome of [c.http.Post]: an error, or a response. *)
Inductive http_result :=
| Post_failed (err : string)
| Post_response (StatusCode : Z) (Body : body).

(** One POST as the transport sees it: url, content type and the decoded
    request batch. *)
Definition post : Type := string * string * list request.

(** The injected HTTP client answers a POST knowing the POSTs made before. *)
Definition HttpClient : Type := list post → post → http_result.

(** [json.Marshal([]*request{req})]: the only field of a request this client
    fills with a caller's value is [Extension]. *)
Fixpoint json_Marshal (reqs : list request) : string + list request :=
  match reqs with
  | [] => inr []
  | r :: rest =>
      match req_Extension r with
      | unsupported_value why => inl why
      | _ => match json_Marshal rest with
             | inl why => inl why
             | inr data => inr (r :: data)
             end
      end
  end.

(** ** The client and the world around it *)

(** Addresses of heap cells holding a [metaMessage].  A [*metaMessage] is
    [option loc] ([None] is nil); a [*Message] obtained as [&msg.Message]
    is the address of the enclosing cell. *)
Definition loc : Type := nat.

(** A caller's output channel [chan<- *Message]. *)
Definition chan_id : Type := nat.

(** What [tomb.Tomb] holds for this client: whether [Kill] was called. *)
Record Tomb := mkTomb { dying : bool }.

Inductive panic := nil_dereference.

Section Model.
Context `{GlobLib}.

Record subscription := mkSubscription { glob : Glob; out : chan_id }.

(** The values stored in [subscriptions map[string]interface{}]: a
    [subscription], or a string. *)
Inductive entry :=
| a_subscription (s : subscription)
| a_string (s : string).

Record Client := mkClient {
  url : string; clientId : string; tomb : option Tomb;
  subscriptions : gmap string entry;
  messages : list loc;
  connected : bool; http : HttpClient; interval : Z }.

Record World := mkWorld {
  client : Client;
  heap : list metaMessage;
  posted : list post;
  logged : list string;
  delivered : list (chan_id * loc);
  workers : nat }.

Definition with_clientId (v : string) (c : Client) : Client :=
  mkClient (url c) v (tomb c) (subscriptions c) (messages c) (connected c)
           (http c) (interval c).
Definition with_tomb (v : option Tomb) (c : Client) : Client :=
  mkClient (url c) (clientId c) v (subscriptions c) (messages c) (connected c)
           (http c) (interval c).
Definition with_subscriptions (v : gmap string entry) (c : Client) : Client :=
  mkClient (url c) (clientId c) (tomb c) v (messages c) (connected c)
           (http c) (interval c).
Definition with_messages (v : list loc) (c : Client) : Client :=
  mkClient (url c) (clientId c) (tomb c) (subscriptions c) v (connected c)
           (http c) (interval c).
Definition with_connected (v : bool) (c : Client) : Client :=
  mkClient (url c) (clientId c) (tomb c) (subscriptions c) (messages c) v
           (http c) (interval c).

Definition on_client (f : Client → Client) (w : World) : World :=
  mkWorld (f (client w)) (heap w) (posted w) (logged w) (delivered w)
          (workers w).
Definition with_heap (v : list metaMessage) (w : World) : World :=
  mkWorld (client w) v (posted w) (logged w) (delivered w) (workers w).
Definition with_posted (v : list post) (w : World) : World :=
  mkWorld (client w) (heap w) v (logged w) (delivered w) (workers w).
Definition with_logged (v : list string) (w : World) : World :=
  mkWorld (client w) (heap w) (posted w) v (delivered w) (workers w).
Definition with_delivered (v : list (chan_id * loc)) (w : World) : World :=
  mkWorld (client w) (heap w) (posted w) (logged w) v (workers w).
Definition with_workers (v : nat) (w : World) : World :=
  mkWorld (client w) (heap w) (posted w) (logged w) (delivered w) v.

(** Reading through a pointer.  An address that was never allocated reads as
    the zero value; the client only holds addresses it allocated. *)
Definition load (l : loc) (w : World) : metaMessage := heap w !!! l.

(** ** Operations: state passing, with panics *)

Inductive result (A : Type) :=
| Ret (a : A) (w : World)
| Panicked (p : panic) (w : World).
Arguments Ret {A} a w.
Arguments Panicked {A} p w.

Definition M (A : Type) : Type := World → result A.

Definition ret {A} (a : A) : M A := λ w, Ret a w.
Definition bind {A B} (m : M A) (k : A → M B) : M B :=
  λ w, match m w with
       | Ret a w' => k a w'
       | Panicked p w' => Panicked p w'
       end.
Definition get : M World := λ w, Ret w w.
Definition modify (f : World → World) : M unit := λ w, Ret tt (f w).
Definition raise {A} (p : panic) : M A := λ w, Panicked p w.

Notation "'let*' x := m 'in' k" := (bind m (λ x, k))
  (at level 10, x pattern, m at level 100, k at level 200).
Notation "m ;;; k" := (bind m (λ _, k))
  (at level 100, k at level 200, right associativity).

(** [rsp.F] for [rsp : *metaMessage]: a nil pointer panics. *)
Definition deref (p : option loc) : M metaMessage :=
  match p with
  | None => raise nil_dereference
  | Some l => let* w := get in ret (load l w)
  end.

(** ** send *)

(** A variable of type [metaMessage] whose address is taken: a fresh cell
    holding the zero value. *)
Definition alloc : M loc :=
  let* w := get in
  modify (with_heap (heap w ++ [zero_metaMessage])) ;;;
  ret (length (heap w)).

(** [c.messages <- p] *)
Definition enqueue (p : loc) : M unit :=
  modify (on_client (λ c, with_messages (messages c ++ [p]) c)).

(** The loop [for _, msg := range messages { ... }] of [send].  The range
    clause declares [msg] once for the whole statement (Go's semantics before
    release 1.22; client.go, which reads the body with io/ioutil, is written
    for such a release): every iteration assigns the next element to the same
    cell [msg], and both [&msg] and [&msg.Message] are the address of that
    one cell. *)
Fixpoint send_range (reqChannel : string) (msg : loc)
    (messages : list metaMessage) (reply : option loc) : M (option loc) :=
  match messages with
  | [] => ret reply
  | m :: rest =>
      modify (λ w, with_heap (<[msg := m]> (heap w)) w) ;;;
      if decide (reqChannel = Channel (message m))
      then send_range reqChannel msg rest (Some msg)
      else enqueue msg ;;; send_range reqChannel msg rest reply
  end.

(** The same loop as a module that asks for Go 1.22 or later would run it:
    every iteration has a variable [msg] of its own.  [send] below does not
    use it; it is here to tell what the shared variable changes. *)
Fixpoint send_range_per_iteration (reqChannel : string)
    (messages : list metaMessage) (reply : option loc) : M (option loc) :=
  match messages with
  | [] => ret reply
  | m :: rest =>
      let* msg := alloc in
      modify (λ w, with_heap (<[msg := m]> (heap w)) w) ;;;
      if decide (reqChannel = Channel (message m))
      then send_range_per_iteration reqChannel rest (Some msg)
      else enqueue msg ;;; send_range_per_iteration reqChannel rest reply
  end.

(** [c.http.Post(c.url, "application/json", buffer)] *)
Definition Post (data : list request) : M http_result :=
  let* w := get in
  let p : post := (url (client w), "application/json", data) in
  modify (with_posted (posted w ++ [p])) ;;;
  ret (http (client w) (posted w) p).

Definition send (req : request) : M (option loc * option error) :=
  match json_Marshal [req] with
  | inl err => ret (None, Some (json_Marshal_error err))
  | inr data =>
      let* rsp := Post data in
      match rsp with
      | Post_failed err => ret (None, Some (http_Post_error err))
      | Post_response StatusCode Body =>
          if decide (StatusCode ≠ 200%Z)
          then ret (None, Some (Errorf_HTTP_Status StatusCode))
          else match Body with
               | unreadable err => ret (None, Some (ioutil_ReadAll_error err))
               | malformed err => ret (None, Some (json_Unmarshal_error err))
               | batch messages =>
                   let* msg := alloc in
                   let* reply :=
                     send_range (req_Channel req) msg messages None in
                   ret (reply, None)
               end
      end
  end.

(** ** The protocol operations *)

(** The request each operation sends. *)
Definition handshake_request : request :=
  {| req_Channel := "/meta/handshake"; req_Data := ""; req_Id := "";
     req_ClientId := ""; req_Extension := nil_value;
     req_Version := VERSION; req_MinimumVersion := MINIMUM_VERSION;
     req_SupportedConnectionTypes := ["long-polling"];
     req_ConnectionType := ""; req_Subscription := "" |}.

Definition connect_request (clientId : string) : request :=
  {| req_Channel := "/meta/connect"; req_Data := ""; req_Id := "";
     req_ClientId := clientId; req_Extension := nil_value;
     req_Version := ""; req_MinimumVersion := "";
     req_SupportedConnectionTypes := [];
     req_ConnectionType := "long-polling"; req_Subscription := "" |}.

Definition disconnect_request (clientId : string) : request :=
  {| req_Channel := "/meta/disconnect"; req_Data := ""; req_Id := "";
     req_ClientId := clientId; req_Extension := nil_value;
     req_Version := ""; req_MinimumVersion := "";
     req_SupportedConnectionTypes := [];
     req_ConnectionType := ""; req_Subscription := "" |}.

Definition subscribe_request (clientId pattern : string) (ext : any_value)
    : request :=
  {| req_Channel := "/meta/subscribe"; req_Data := ""; req_Id := "";
     req_ClientId := clientId; req_Extension := ext;
     req_Version := ""; req_MinimumVersion := "";
     req_SupportedConnectionTypes := [];
     req_ConnectionType := ""; req_Subscription := pattern |}.

Definition unsubscribe_request (clientId pattern : string) : request :=
  {| req_Channel := "/meta/unsubscribe"; req_Data := ""; req_Id := "";
     req_ClientId := clientId; req_Extension := nil_value;
     req_Version := ""; req_MinimumVersion := "";
     req_SupportedConnectionTypes := [];
     req_ConnectionType := ""; req_Subscription := pattern |}.

(** The part the four checking operations share:
    [if err != nil { return err }; if !rsp.Successful { return
    errors.New(rsp.Error) }], then [onSuccess] with the reply read through
    [rsp]. *)
Definition checked (sent : option loc * option error)
    (onSuccess : metaMessage → M unit) : M (option error) :=
  let (rsp, err) := sent in
  match err with
  | Some e => ret (Some e)
  | None =>
      let* r := deref rsp in
      if negb (Successful r) then ret (Some (errors_New (Error r)))
      else onSuccess r ;;; ret None
  end.

Definition handshake : M (option error) :=
  let* sent := send handshake_request in
  checked sent (λ r,
    modify (on_client (with_clientId (ClientId (message r))))).

Definition connect : M (option loc * option error) :=
  let* w := get in
  send (connect_request (clientId (client w))).

Definition disconnect : M (option error) :=
  let* w := get in
  let* sent := send (disconnect_request (clientId (client w))) in
  checked sent (λ _, ret tt).

(** [c.subscriptions[glob.String()] = subscription{glob: glob, out: out}] *)
Definition doRegister (glob : Glob) (out : chan_id) : M unit :=
  modify (on_client (λ c, with_subscriptions
    (<[Glob_String glob := a_subscription (mkSubscription glob out)]>
       (subscriptions c)) c)).

Definition subscribe (pattern : string) (out : chan_id) (ext : any_value)
    : M (option error) :=
  match ohmyglob_Compile pattern with
  | inr err => ret (Some (Errorf_Invalid_pattern err))
  | inl glob =>
      let* w := get in
      let* sent :=
        send (subscribe_request (clientId (client w)) pattern ext) in
      checked sent (λ _, doRegister glob out)
  end.

(** [c.subscriptions[pattern] = ""] *)
Definition doForgetSubscription (pattern : string) : M unit :=
  modify (on_client (λ c, with_subscriptions
    (<[pattern := a_string ""]> (subscriptions c)) c)).

Definition Unsubscribe (pattern : string) : M (option error) :=
  let* w := get in
  let* sent := send (unsubscribe_request (clientId (client w)) pattern) in
  checked sent (λ _, doForgetSubscription pattern).

(** ** Connection life cycle *)

(** [http.DefaultClient] *)
Variable http_DefaultClient : HttpClient.

Definition NewClient (url : string) (httpClient : option HttpClient) : Client :=
  let httpClient := match httpClient with
                    | None => http_DefaultClient
                    | Some h => h
                    end in
  {| url := url; clientId := ""; tomb := None; subscriptions := ∅;
     messages := []; connected := false; http := httpClient;
     interval := 0 |}.

(** A program that has just built its client. *)
Definition start (c : Client) : World :=
  {| client := c; heap := []; posted := []; logged := []; delivered := [];
     workers := 0 |}.

(** [c.tomb.Go(c.worker)]: one more worker goroutine runs. *)
Definition Go_worker : M unit := modify (λ w, with_workers (S (workers w)) w).

Definition ensureConnected : M (option error) :=
  let* w := get in
  if connected (client w) then ret None
  else
    let* w := get in
    if connected (client w) then ret None
    else
      let* err := handshake in
      match err with
      | None =>
          modify (on_client (with_connected true)) ;;;
          modify (on_client (with_tomb (Some (mkTomb false)))) ;;;
          Go_worker ;;;
          ret err
      | Some _ => ret err
      end.

Definition Connect : M (option error) := ensureConnected.

Definition SubscribeExt (pattern : string) (out : chan_id) (ext : any_value)
    : M (option error) :=
  let* err := ensureConnected in
  match err with
  | Some e => ret (Some e)
  | None => subscribe pattern out ext
  end.

Definition Subscribe (pattern : string) (out : chan_id) : M (option error) :=
  SubscribeExt pattern out nil_value.

(** [c.tomb.Killf("Close")]: a method of [*tomb.Tomb] that locks the tomb's
    mutex first, so a nil receiver panics. *)
Definition Killf : M unit :=
  let* w := get in
  match tomb (client w) with
  | None => raise nil_dereference
  | Some _ => modify (on_client (with_tomb (Some (mkTomb true))))
  end.

Definition Close : M (option error) :=
  Killf ;;;
  modify (on_client (with_connected false)) ;;;
  disconnect.

(** ** The worker *)

(** The case a [select] of the worker takes.  Receiving a message comes with
    the order in which [range c.subscriptions] then visits the map, which Go
    leaves open. *)
Inductive event :=
| message_ready (order : list (string * entry))
| tomb_dying
| timer_fired.

Inductive flow := continue | returned (err : option error).

(** [s.out <- msg] *)
Definition deliver (out : chan_id) (msg : loc) : M unit :=
  modify (λ w, with_delivered (delivered w ++ [(out, msg)]) w).

(** [for _, sub := range c.subscriptions { ... }] *)
Fixpoint fan_out (msg : loc) (subs : list (string * entry)) : M unit :=
  match subs with
  | [] => ret tt
  | (_, sub) :: rest =>
      match sub with
      | a_subscription s =>
          let* w := get in
          if Glob_MatchString (glob s) (Channel (message (load msg w)))
          then deliver (out s) msg
          else ret tt
      | a_string _ => ret tt
      end ;;;
      fan_out msg rest
  end.

(** When a case of the [select] can be taken. *)
Definition ready (ev : event) (w : World) : Prop :=
  match ev with
  | message_ready order =>
      messages (client w) ≠ [] ∧
      order ≡ₚ map_to_list (subscriptions (client w))
  | tomb_dying => ∃ t, tomb (client w) = Some t ∧ dying t = true
  | timer_fired => True
  end.

(** One turn of the [for { select { ... } }] loop of [worker], taking the
    case [ev]. *)
Definition worker_turn (ev : event) : M flow :=
  let* w := get in
  match tomb (client w) with
  | None => raise nil_dereference
  | Some _ =>
      match ev with
      | message_ready order =>
          match messages (client w) with
          | [] => ret continue
          | msg :: queue =>
              modify (on_client (with_messages queue)) ;;;
              fan_out msg order ;;;
              ret continue
          end
      | tomb_dying => ret (returned None)
      | timer_fired =>
          let* (_, err) := connect in
          match err with
          | Some e =>
              modify (λ w, with_logged
                (logged w ++ ["[WRN] Bayeux connect failed: " ++ error_text e])
                w) ;;;
              ret continue
          | None => ret continue
          end
      end
  end.

(** ** The program: callers and the worker, interleaved *)

Inductive action :=
| do_Connect
| do_Subscribe (pattern : string) (out : chan_id)
| do_SubscribeExt (pattern : string) (out : chan_id) (ext : any_value)
| do_Unsubscribe (pattern : string)
| do_Close
| do_worker (ev : event).

Definition perform (a : action) : M (option error) :=
  match a with
  | do_Connect => Connect
  | do_Subscribe pattern out => Subscribe pattern out
  | do_SubscribeExt pattern out ext => SubscribeExt pattern out ext
  | do_Unsubscribe pattern => Unsubscribe pattern
  | do_Close => Close
  | do_worker ev =>
      let* f := worker_turn ev in
      match f with
      | continue => ret None
      | returned err =>
          modify (λ w, with_workers (pred (workers w)) w) ;;; ret err
      end
  end.

Definition enabled (a : action) (w : World) : Prop :=
  match a with
  | do_worker ev => 0 < workers w ∧ ready ev w
  | _ => True
  end.

(** [run w acts w']: the actions [acts], each taken when it can be and none
    of them panicking, lead from [w] to [w']. *)
Inductive run : World → list action → World → Prop :=
| run_done w : run w [] w
| run_step w a r w1 acts w2 :
    enabled a w → perform a w = Ret r w1 → run w1 acts w2 →
    run w (a :: acts) w2.

End Model.

Arguments Ret {_ _} a w.
Arguments Panicked {_ _} p w.

(** ** A small pattern library

    An implementation of [GlobLib] to run the client on concrete inputs, in
    the manner of ohmyglob: [Compile] trims the white space around the
    pattern, [String] gives the trimmed pattern back.  [*] stands for a run
    of characters other than the separator [/], [**] for any run, [?] for one
    character other than the separator, and [[...]] for one of the listed
    characters; a [[] that is never closed does not compile. *)
Module SampleGlob.

Inductive token :=
| lit (c : ascii)
| any_one
| star
| globstar
| one_of (cs : list ascii).

Record t := mk { pattern : string; tokens : list token }.

Definition is_space (c : ascii) : bool :=
  bool_decide (c ∈ [" "; "009"; "010"; "013"]%char).

Fixpoint drop_space (cs : list ascii) : list ascii :=
  match cs with
  | c :: rest => if is_space c then drop_space rest else cs
  | [] => []
  end.

Definition TrimSpace (s : string) : string :=
  string_of_list_ascii
    (rev (drop_space (rev (drop_space (list_ascii_of_string s))))).

Fixpoint scan (class : option (list ascii)) (cs : list ascii)
    : list token + string :=
  match cs with
  | [] => match class with
          | None => inl []
          | Some _ => inr "unbalanced ["
          end
  | c :: rest =>
      match class with
      | Some seen =>
          if bool_decide (c = "]"%char)
          then match scan None rest with
               | inl ts => inl (one_of (rev seen) :: ts)
               | inr err => inr err
               end
          else scan (Some (c :: seen)) rest
      | None =>
          if bool_decide (c = "["%char) then scan (Some []) rest
          else if bool_decide (c = "?"%char) then
            match scan None rest with
            | inl ts => inl (any_one :: ts)
            | inr err => inr err
            end
          else if bool_decide (c = "*"%char) then
            match rest with
            | c' :: rest' =>
                if bool_decide (c' = "*"%char)
                then match scan None rest' with
                     | inl ts => inl (globstar :: ts)
                     | inr err => inr err
                     end
                else match scan None rest with
                     | inl ts => inl (star :: ts)
                     | inr err => inr err
                     end
            | [] => inl [star]
            end
          else match scan None rest with
               | inl ts => inl (lit c :: ts)
               | inr err => inr err
               end
      end
  end.

Definition Compile (pattern : string) : t + string :=
  let pattern := TrimSpace pattern in
  match scan None (list_ascii_of_string pattern) with
  | inl ts => inl (mk pattern ts)
  | inr err => inr err
  end.

Fixpoint matches (ts : list token) (s : list ascii) : bool :=
  match ts with
  | [] => match s with [] => true | _ => false end
  | lit c :: ts' =>
      match s with
      | x :: s' => bool_decide (x = c) && matches ts' s'
      | [] => false
      end
  | any_one :: ts' =>
      match s with
      | x :: s' => bool_decide (x ≠ "/"%char) && matches ts' s'
      | [] => false
      end
  | one_of cs :: ts' =>
      match s with
      | x :: s' => bool_decide (x ∈ cs) && matches ts' s'
      | [] => false
      end
  | star :: ts' =>
      (fix run (s : list ascii) : bool :=
         matches ts' s ||
         match s with
         | x :: s' => bool_decide (x ≠ "/"%char) && run s'
         | [] => false
         end) s
  | globstar :: ts' =>
      (fix run (s : list ascii) : bool :=
         matches ts' s ||
         match s with
         | _ :: s' => run s'
         | [] => false
         end) s
  end.

Definition MatchString (g : t) (s : string) : bool :=
  matches (tokens g) (list_ascii_of_string s).

End SampleGlob.

#[global] Instance sample_globs : GlobLib :=
  {| Glob := SampleGlob.t;
     ohmyglob_Compile := SampleGlob.Compile;
     Glob_String := SampleGlob.pattern;
     Glob_MatchString := SampleGlob.MatchString |}.

(** ** Notions used to state the properties *)

Section Notions.
Context `{GlobLib}.

(** What the transport answers when [req] is sent from [w]. *)
Definition answer (w : World) (req : request) : http_result :=
  http (client w) (posted w) (url (client w), "application/json", [req]).

(** [req] marshals, and the server answers it from [w] with status 200 and
    a body that decodes to [messages]. *)
Definition decoded (w : World) (req : request) (messages : list metaMessage)
    : Prop :=
  json_Marshal [req] = inr [req] ∧ answer w req = Post_response 200 (batch messages).

(** Why [send] returns an error, when it does. *)
Definition failure (w : World) (req : request) : option error :=
  match json_Marshal [req] with
  | inl err => Some (json_Marshal_error err)
  | inr _ =>
      match answer w req with
      | Post_failed err => Some (http_Post_error err)
      | Post_response code body =>
          if decide (code = 200%Z) then
            match body with
            | unreadable err => Some (ioutil_ReadAll_error err)
            | malformed err => Some (json_Unmarshal_error err)
            | batch _ => None
            end
          else Some (Errorf_HTTP_Status code)
      end
  end.

(** The envelopes of a batch on, and off, a channel. *)
Definition on_channel (channel : string) (messages : list metaMessage)
    : list metaMessage :=
  filter (λ m, Channel (message m) = channel) messages.
Definition off_channel (channel : string) (messages : list metaMessage)
    : list metaMessage :=
  filter (λ m, Channel (message m) ≠ channel) messages.

(** Everything [send] leaves alone: all but the heap, the queue and the
    log of POSTs. *)
Definition same_session (w w' : World) : Prop :=
  url (client w') = url (client w) ∧
  clientId (client w') = clientId (client w) ∧
  tomb (client w') = tomb (client w) ∧
  subscriptions (client w') = subscriptions (client w) ∧
  connected (client w') = connected (client w) ∧
  http (client w') = http (client w) ∧
  interval (client w') = interval (client w) ∧
  logged w' = logged w ∧
  delivered w' = delivered w ∧
  workers w' = workers w.

(** The operations that read [rsp.Successful] of the reply [send] gave. *)
Inductive operation :=
| op_handshake
| op_subscribe (pattern : string) (out : chan_id) (ext : any_value)
| op_Unsubscribe (pattern : string)
| op_disconnect.

Definition run_op (op : operation) : M (option error) :=
  match op with
  | op_handshake => handshake
  | op_subscribe pattern out ext => subscribe pattern out ext
  | op_Unsubscribe pattern => Unsubscribe pattern
  | op_disconnect => disconnect
  end.

(** The request an operation sends from [w], if it sends one. *)
Definition request_of (op : operation) (w : World) : option request :=
  match op with
  | op_handshake => Some handshake_request
  | op_subscribe pattern _ ext =>
      match ohmyglob_Compile pattern with
      | inl _ => Some (subscribe_request (clientId (client w)) pattern ext)
      | inr _ => None
      end
  | op_Unsubscribe pattern =>
      Some (unsubscribe_request (clientId (client w)) pattern)
  | op_disconnect => Some (disconnect_request (clientId (client w)))
  end.

(** What an operation does to the client once the reply says
    [successful]. *)
Definition on_success (op : operation) (r : metaMessage) (c : Client)
    : Client :=
  match op with
  | op_handshake => with_clientId (ClientId (message r)) c
  | op_subscribe pattern out _ =>
      match ohmyglob_Compile pattern with
      | inl g => with_subscriptions
                   (<[Glob_String g := a_subscription (mkSubscription g out)]>
                      (subscriptions c)) c
      | inr _ => c
      end
  | op_Unsubscribe pattern =>
      with_subscriptions (<[pattern := a_string ""]> (subscriptions c)) c
  | op_disconnect => c
  end.

(** [send] returns an error: the ways the code has. *)
Definition send_fails_because (w : World) (req : request) : Prop :=
  (∃ err, json_Marshal [req] = inl err) ∨
  (∃ err, answer w req = Post_failed err) ∨
  (∃ code body, answer w req = Post_response code body ∧
     (code ≠ 200%Z ∨ (∃ err, body = unreadable err) ∨
      (∃ err, body = malformed err))).

(** [send] returns an error exactly when a response came back with a status
    other than 200 or with a body that cannot be read or parsed. *)
Definition fails_exactly_on_bad_response (w : World) (req : request) : Prop :=
  (∃ rsp e w', send req w = Ret (rsp, Some e) w') ↔
  (∃ code body, answer w req = Post_response code body ∧
     (code ≠ 200%Z ∨ (∃ err, body = unreadable err) ∨
      (∃ err, body = malformed err))).

(** The tomb, if there is one, has not been killed. *)
Definition not_dying (w : World) : Prop :=
  ∀ t, tomb (client w) = Some t → dying t = false.

(** A transport on which every request from now on fails in [send]:
    whatever is POSTed after [sofar], the POST fails, or the status is not
    200, or the body cannot be read or parsed. *)
Definition refuses (h : HttpClient) (sofar : list post) : Prop :=
  ∀ more p,
    match h (sofar ++ more)%list p with
    | Post_failed _ => True
    | Post_response code body =>
        code ≠ 200%Z ∨ (∃ err, body = unreadable err) ∨
        (∃ err, body = malformed err)
    end.

(** The line the worker logs for a failed connect. *)
Definition warning (e : error) : string :=
  "[WRN] Bayeux connect failed: " ++ error_text e.

(** The actions that start with [ensureConnected]. *)
Definition ensures_connection (a : action) : bool :=
  match a with
  | do_Connect | do_Subscribe _ _ | do_SubscribeExt _ _ _ => true
  | _ => false
  end.

(** The worlds a program reaches from a new client as long as no call of
    [ensureConnected] has returned nil. *)
Inductive never_connected : World → Prop :=
| fresh_client dflt url h : never_connected (start (NewClient dflt url h))
| not_yet w a r w' :
    never_connected w →
    enabled a w →
    perform a w = Ret r w' →
    (ensures_connection a = true → ∀ w1, ensureConnected w ≠ Ret None w1) →
    never_connected w'.

(** The world an operation ends in. *)
Definition after {A} (m : M A) (w : World) : World :=
  match m w with
  | Ret _ w' => w'
  | Panicked _ w' => w'
  end.

(** The subscriptions a registry routes to, in the order of a visit. *)
Definition routes (visit : list (string * entry)) : list subscription :=
  omap (λ kv, match kv.2 with
              | a_subscription s => Some s
              | a_string _ => None
              end) visit.

(** The routes that take a message on [channel]. *)
Definition matching (channel : string) (visit : list (string * entry))
    : list subscription :=
  filter (λ s, Glob_MatchString (glob s) channel = true) (routes visit).

(** The channels the client sends its requests on. *)
Definition meta_channels : list string :=
  ["/meta/handshake"; "/meta/connect"; "/meta/subscribe";
   "/meta/unsubscribe"; "/meta/disconnect"].

(** A POST as the client makes them: to its url, as JSON, a batch of one
    request on a meta channel. *)
Definition client_post (url : string) (p : post) : Prop :=
  ∃ req, p = (url, "application/json", [req]) ∧
         req_Channel req ∈ meta_channels.

(** [w'] extends [w]: the configuration is the same, and the heap, the
    POSTs, the log, the deliveries and the keys of the registry have only
    grown. *)
Definition extends (w w' : World) : Prop :=
  url (client w') = url (client w) ∧
  http (client w') = http (client w) ∧
  interval (client w') = interval (client w) ∧
  heap w `prefix_of` heap w' ∧
  (∃ more, posted w' = (posted w ++ more)%list ∧
           Forall (client_post (url (client w))) more) ∧
  dom (subscriptions (client w)) ⊆ dom (subscriptions (client w')) ∧
  logged w `prefix_of` logged w' ∧
  delivered w `prefix_of` delivered w'.

(** A connected client, and a client with a worker, has a tomb. *)
Definition tomb_in_place (w : World) : Prop :=
  (connected (client w) = true → tomb (client w) ≠ None) ∧
  (0 < workers w → tomb (client w) ≠ None).

End Notions.

(** ** Sample inputs *)

(** A server reply on a meta channel. *)
Definition reply_on (channel : string) (ok : bool) (err : string)
    : metaMessage :=
  mkMeta (mkMessage channel "" "" "" nil_value) "" "" [] "" "" ok "" err None.

(** A pushed message on a data channel. *)
Definition pushed (channel data : string) : metaMessage :=
  mkMeta (mkMessage channel data "" "" nil_value) "" "" [] "" "" false "" ""
         None.

(** A transport that answers the n-th POST with the n-th entry of a script,
    and fails once the script is used up. *)
Definition scripted (script : list http_result) : HttpClient :=
  λ earlier _, default (Post_failed "connection refused")
                       (script !! length earlier).

(** A transport that answers every request with the one-envelope batch
    holding a successful reply on the request's own channel. *)
Definition agreeable : HttpClient :=
  λ _ p, Post_response 200
           (batch (map (λ r, reply_on (req_Channel r) true "") p.2)).

Definition ok_batch (messages : list metaMessage) : http_result :=
  Post_response 200 (batch messages).

(** A new client talking to a scripted server. *)
Definition client_of (script : list http_result) : World :=
  start (NewClient agreeable "http://server/cometd" (Some (scripted script))).

(** A new client talking to a server that agrees to everything. *)
Definition agreeable_client : World :=
  start (NewClient agreeable "http://server/cometd" (Some agreeable)).

(** The matcher [SampleGlob.Compile] gives for [/foo/*]. *)
Definition foo_star : Glob :=
  SampleGlob.mk "/foo/*"
    [SampleGlob.lit "/"; SampleGlob.lit "f"; SampleGlob.lit "o";
     SampleGlob.lit "o"; SampleGlob.lit "/"; SampleGlob.star].

(** A client that has subscribed [/foo/*] with output channel 7; the
    server's later answers follow [script]. *)
Definition subscribed_client (script : list http_result) : World :=
  after (subscribe "/foo/*" 7 nil_value)
        (client_of (ok_batch [reply_on "/meta/subscribe" true ""] :: script)).

(** The server refuses to unsubscribe. *)
Definition refusal : metaMessage :=
  reply_on "/meta/unsubscribe" false "Unknown client".

(** A session: handshake, subscribe and unsubscribe all accepted, then a
    connect reply that comes with a message on [/foo/bar]. *)
Definition session_script : list http_result :=
  [ok_batch [reply_on "/meta/handshake" true ""];
   ok_batch [reply_on "/meta/subscribe" true ""];
   ok_batch [reply_on "/meta/unsubscribe" true ""];
   ok_batch [reply_on "/meta/connect" true ""; pushed "/foo/bar" "hi"]].

(** A client with subscriptions [/foo/*] to channel 7 and [/chat/**] to
    channel 8, whose worker has just polled and got a message on
    [/foo/bar]. *)
Definition routing_client : World :=
  after (worker_turn timer_fired)
    (after (Subscribe "/chat/**" 8)
       (after (Subscribe "/foo/*" 7)
          (client_of
             [ok_batch [reply_on "/meta/handshake" true ""];
              ok_batch [reply_on "/meta/subscribe" true ""];
              ok_batch [reply_on "/meta/subscribe" true ""];
              ok_batch [reply_on "/meta/connect" true "";
                        pushed "/foo/bar" "hi"]]))).

(** A connected client whose server has gone away. *)
Definition stranded_client : World :=
  after Connect (client_of [ok_batch [reply_on "/meta/handshake" true ""]]).

(** The actions of a short session, and the world it ends in. *)
Definition session_actions : list action :=
  [do_Subscribe " /foo/*" 7; do_Unsubscribe " /foo/*"; do_worker timer_fired].

Definition session_end : World :=
  after (perform (do_worker timer_fired))
    (after (perform (do_Unsubscribe " /foo/*"))
       (after (perform (do_Subscribe " /foo/*" 7))
          (client_of session_script))).

(** A connect reply followed by two pushed messages. *)
Definition connect_batch : list metaMessage :=
  [reply_on "/meta/connect" true ""; pushed "/a" "1"; pushed "/b" "2"].


(** ** The model on sample inputs *)

Example compile_trims :
  sum_map Glob_String id (ohmyglob_Compile " /foo/* ") = inl "/foo/*".
Proof. vm_compute. reflexivity. Qed.
Example compile_unbalanced : ohmyglob_Compile "/foo/[ab" = inr "unbalanced [".
Proof. vm_compute. reflexivity. Qed.
Example star_matches :
  sum_map (λ g, (Glob_MatchString g "/foo/bar",
                 Glob_MatchString g "/foo/bar/baz",
                 Glob_MatchString g "/fox/bar")) id
    (ohmyglob_Compile "/foo/*") = inl (true, false, false).
Proof. vm_compute. reflexivity. Qed.
Example globstar_matches :
  sum_map (λ g, (Glob_MatchString g "/chat/room1",
                 Glob_MatchString g "/chat/a/b")) id
    (ohmyglob_Compile "/chat/**") = inl (true, true).
Proof. vm_compute. reflexivity. Qed.

Example status_text : error_text (Errorf_HTTP_Status 503) = "HTTP Status 503".
Proof. reflexivity. Qed.

(** A handshake that the server accepts stores the client id. *)
Example handshake_stores_clientId :
  clientId (client (after handshake
    (client_of [ok_batch [mkMeta (mkMessage "/meta/handshake" "" "" "abc123"
                                    nil_value)
                            "1.0" "" ["long-polling"] "" "" true "" ""
                            None]]))) = "abc123".
Proof. vm_compute. reflexivity. Qed.

(** A response with status 204 is an error for [send], whatever its body. *)
Example send_status_204 :
  ∃ w', send (connect_request "")
             (client_of [Post_response 204 (batch [])]) =
          Ret (None, Some (Errorf_HTTP_Status 204)) w'.
Proof. eexists. vm_compute. reflexivity. Qed.

(** An extension that cannot be marshalled fails [send] before any POST. *)
Example send_unmarshallable :
  send (subscribe_request "" "/foo/*" (unsupported_value "unsupported type"))
       agreeable_client =
    Ret (None, Some (json_Marshal_error "unsupported type")) agreeable_client.
Proof. reflexivity. Qed.

(** ** Properties of [send] *)

Ltac session Hs :=
  unfold same_session in Hs; destruct Hs as (?&?&?&?&?&?&?&?&?&?).

Section SendFacts.
Context `{GlobLib}.

Lemma store_again (m : metaMessage) (rest h : list metaMessage) (l : loc) :
  match last rest with
  | Some m0 => <[l := m0]> (<[l := m]> h)
  | None => <[l := m]> h
  end =
  match last (m :: rest) with
  | Some m0 => <[l := m0]> h
  | None => h
  end.
Proof.
  rewrite last_cons. destruct (last rest); [|done].
  apply list_insert_insert_eq.
Qed.

(** The loop of [send]: the reply is the address of the loop variable as
    soon as one envelope is on the request's channel; that variable ends up
    holding the last envelope of the batch; and its address joins the queue
    once for every envelope off the request's channel. *)
Lemma send_range_spec (ch : string) (l : loc) (msgs : list metaMessage)
    (reply : option loc) (w : World) :
  ∃ w', send_range ch l msgs reply w =
          Ret (match on_channel ch msgs with [] => reply | _ => Some l end) w' ∧
        heap w' = match last msgs with
                  | Some m => <[l := m]> (heap w)
                  | None => heap w
                  end ∧
        messages (client w') =
          (messages (client w) ++
           replicate (length (off_channel ch msgs)) l)%list ∧
        posted w' = posted w ∧
        same_session w w'.
Proof.
  revert reply w. induction msgs as [|m rest IH]; intros reply w.
  - exists w. simpl. rewrite app_nil_r. repeat split; done.
  - cbn [send_range]. unfold bind, modify at 1.
    unfold on_channel, off_channel. rewrite !filter_cons.
    set (w1 := with_heap (<[l:=m]> (heap w)) w).
    destruct (decide (ch = Channel (message m))) as [Heq|Hne].
    + destruct (IH (Some l) w1) as (w' & Hrun & Hheap & Hq & Hp & Hs).
      exists w'. rewrite Hrun.
      rewrite decide_True by done. rewrite decide_False by (intros ?; done).
      split; [simpl; fold (on_channel ch rest); by destruct (on_channel ch rest)|].
      split; [|done]. rewrite Hheap. subst w1; simpl. apply store_again.
    + unfold enqueue, modify.
      set (w2 := on_client _ w1).
      destruct (IH reply w2) as (w' & Hrun & Hheap & Hq & Hp & Hs).
      exists w'. rewrite Hrun.
      rewrite decide_False by done. rewrite decide_True by done.
      split; [done|]. split; [|split; [|done]].
      * rewrite Hheap. subst w2 w1; simpl. apply store_again.
      * rewrite Hq. subst w2 w1; simpl. by rewrite <- app_assoc.
Qed.

Lemma json_Marshal_one (req : request) (data : list request) :
  json_Marshal [req] = inr data → data = [req].
Proof. simpl. destruct (req_Extension req); congruence. Qed.

(** [send] on a response that decodes. *)
Lemma send_decoded (w : World) (req : request) (msgs : list metaMessage) :
  decoded w req msgs →
  ∃ w', send req w =
          Ret (match on_channel (req_Channel req) msgs with
               | [] => None
               | _ => Some (length (heap w))
               end, None) w' ∧
        heap w' = (heap w ++ [default zero_metaMessage (last msgs)])%list ∧
        messages (client w') =
          (messages (client w) ++
           replicate (length (off_channel (req_Channel req) msgs))
                     (length (heap w)))%list ∧
        posted w' =
          (posted w ++ [(url (client w), "application/json", [req])])%list ∧
        same_session w w'.
Proof.
  intros [Hm Ha]. unfold answer in Ha. unfold send. rewrite Hm.
  unfold bind at 1. unfold Post, bind, get, modify, ret. simpl. rewrite Ha.
  rewrite decide_False by (intros Hne; by apply Hne).
  unfold alloc, bind, get, modify, ret.
  set (w1 := with_heap _ _).
  destruct (send_range_spec (req_Channel req) (length (heap w)) msgs None w1)
    as (w' & Hrun & Hheap & Hq & Hp & Hs).
  exists w'. simpl. rewrite Hrun. repeat split; try apply Hs; try done.
  rewrite Hheap. subst w1; simpl. destruct (last msgs); simpl; [|done].
  replace (length (heap w)) with (length (heap w) + 0) at 1 by lia.
  by rewrite insert_app_r.
Qed.

Lemma failure_None (w : World) (req : request) :
  failure w req = None ↔ ∃ msgs, decoded w req msgs.
Proof.
  unfold failure, decoded. split.
  - destruct (json_Marshal [req]) as [?|data] eqn:Hm; [done|].
    apply json_Marshal_one in Hm as Hd. subst data.
    destruct (answer w req) as [?|code body]; [done|].
    case_decide; [|done]. subst code.
    destruct body as [?|?|msgs]; try done. intros _. by exists msgs.
  - intros (msgs & -> & ->). by rewrite decide_True.
Qed.

(** [send] on anything else: the error comes back with a nil reply, and
    neither the heap nor the queue is touched. *)
Lemma send_failure (w : World) (req : request) (e : error) :
  failure w req = Some e →
  ∃ w', send req w = Ret (None, Some e) w' ∧
        heap w' = heap w ∧
        messages (client w') = messages (client w) ∧
        same_session w w' ∧
        posted w' =
          match json_Marshal [req] with
          | inl _ => posted w
          | inr _ =>
              (posted w ++ [(url (client w), "application/json", [req])])%list
          end.
Proof.
  unfold failure, send, answer.
  destruct (json_Marshal [req]) as [?|data] eqn:Hm.
  { intros [= <-]. exists w. repeat split; done. }
  apply json_Marshal_one in Hm as Hd. subst data.
  unfold bind at 1. unfold Post, bind, get, modify, ret. simpl.
  set (w1 := with_posted _ w).
  destruct (http _ _ _) as [?|code body].
  { intros [= <-]. exists w1. repeat split; done. }
  destruct (decide (code = 200%Z)) as [->|Hne].
  - rewrite decide_False by (intros Hne; by apply Hne).
    destruct body; intros [= <-]; exists w1; repeat split; done.
  - rewrite decide_True by done.
    intros [= <-]. exists w1. repeat split; done.
Qed.

(** What the loop variable of [send] holds when [send] returns. *)
Lemma load_loop_variable (w w' : World) (msgs : list metaMessage) :
  heap w' = (heap w ++ [default zero_metaMessage (last msgs)])%list →
  load (length (heap w)) w' = default zero_metaMessage (last msgs).
Proof. intros Hh. unfold load. rewrite Hh. apply list_lookup_total_middle. done. Qed.

(** An operation that checks the reply, on a response that decodes: it
    panics when no envelope is on the request's channel; otherwise it reads
    [Successful] and [Error] from the loop variable of [send], that is, from
    the last envelope of the batch. *)
Lemma op_decoded (op : operation) (w : World) (req : request)
    (msgs : list metaMessage) :
  request_of op w = Some req →
  decoded w req msgs →
  ∃ w1, heap w1 = (heap w ++ [default zero_metaMessage (last msgs)])%list ∧
        messages (client w1) =
          (messages (client w) ++
           replicate (length (off_channel (req_Channel req) msgs))
                     (length (heap w)))%list ∧
        posted w1 =
          (posted w ++ [(url (client w), "application/json", [req])])%list ∧
        same_session w w1 ∧
        run_op op w =
          match on_channel (req_Channel req) msgs with
          | [] => Panicked nil_dereference w1
          | _ =>
              let r := default zero_metaMessage (last msgs) in
              if Successful r then Ret None (on_client (on_success op r) w1)
              else Ret (Some (errors_New (Error r))) w1
          end.
Proof.
  intros Hreq Hdec.
  destruct (send_decoded w req msgs Hdec) as (w1 & Hsend & Hh & Hq & Hp & Hs).
  exists w1. repeat split; try apply Hs; try done.
  pose proof (load_loop_variable w w1 msgs Hh) as Hload.
  assert (Hgen : ∀ k : metaMessage → M unit,
    bind (send req) (λ sent, checked sent k) w =
      match on_channel (req_Channel req) msgs with
      | [] => Panicked nil_dereference w1
      | _ =>
          let r := default zero_metaMessage (last msgs) in
          if Successful r then bind (k r) (λ _, ret None) w1
          else Ret (Some (errors_New (Error r))) w1
      end).
  { intros k. unfold bind at 1. rewrite Hsend.
    destruct (on_channel (req_Channel req) msgs); [done|].
    unfold checked, deref, bind, get, ret. rewrite Hload.
    by destruct (Successful _). }
  destruct op as [|pattern out ext|pattern|]; simpl in Hreq |- *.
  - injection Hreq as <-. unfold handshake. by rewrite Hgen.
  - unfold subscribe.
    destruct (ohmyglob_Compile pattern) as [g|] eqn:Hc; [|done].
    injection Hreq as <-. unfold bind at 1, get. rewrite Hgen.
    destruct (on_channel _ msgs); [done|]. unfold on_success. rewrite Hc.
    by destruct (Successful _).
  - injection Hreq as <-. unfold Unsubscribe, bind at 1, get. by rewrite Hgen.
  - injection Hreq as <-. unfold disconnect, bind at 1, get. rewrite Hgen.
    destruct (on_channel _ msgs); [done|]. simpl.
    destruct (Successful _); [|done]. unfold bind, ret. by destruct w1.
Qed.

End SendFacts.

(** ** Demultiplexing in [send] *)

(** C1, at a connect reply followed by two pushed messages: [send] returns
    the address of its loop variable, and puts that same address on the
    queue twice.  When [send] returns, the loop variable holds the last
    envelope of the batch, so the value the caller reads through the reply
    is the pushed message on [/b], not the connect reply, and both queued
    messages read as the message on [/b]; the message on [/a] is lost. *)
Theorem send_connect_batch_aliased :
  ∃ rsp w',
    send (connect_request "") (client_of [ok_batch connect_batch]) =
      Ret (Some rsp, None) w' ∧
    load rsp w' = pushed "/b" "2" ∧
    load rsp w' ≠ reply_on "/meta/connect" true "" ∧
    messages (client w') = [rsp; rsp] ∧
    map (λ p, message (load p w')) (messages (client w')) =
      [message (pushed "/b" "2"); message (pushed "/b" "2")] ∧
    map (λ p, message (load p w')) (messages (client w')) ≠
      [message (pushed "/a" "1"); message (pushed "/b" "2")].
Proof.
  eexists _, _. split; [vm_compute; reflexivity|].
  repeat split; try done.
Qed.

(** With a loop variable per iteration the loop would do what is meant:
    the reply reads as the last envelope on the request's channel, and the
    new queue entries read as the other envelopes, in batch order. *)
Lemma send_range_per_iteration_spec `{GlobLib} (ch : string)
    (msgs : list metaMessage) (reply : option loc) (w : World) :
  ∃ w' added rsp,
    send_range_per_iteration ch msgs reply w = Ret rsp w' ∧
    heap w' = (heap w ++ msgs)%list ∧
    messages (client w') = (messages (client w) ++ added)%list ∧
    map (λ p, load p w') added = off_channel ch msgs ∧
    match last (on_channel ch msgs) with
    | Some m => ∃ l, rsp = Some l ∧ load l w' = m
    | None => rsp = reply
    end.
Proof.
  revert reply w. induction msgs as [|m rest IH]; intros reply w.
  - exists w, [], reply. simpl. rewrite !app_nil_r. done.
  - cbn [send_range_per_iteration].
    unfold bind at 1, alloc, bind at 1, get, bind at 1, modify at 1, ret at 1.
    unfold bind at 1, modify at 1. cbn [heap with_heap].
    replace (<[length (heap w) := m]> (heap w ++ [zero_metaMessage])%list)
      with (heap w ++ [m])%list
      by (replace (length (heap w)) with (length (heap w) + 0) at 1 by lia;
          by rewrite insert_app_r).
    set (w1 := with_heap (heap w ++ [m])%list _).
    assert (Hcell : ∀ w', heap w' = ((heap w ++ [m]) ++ rest)%list →
                          load (length (heap w)) w' = m).
    { intros w' Hh. unfold load. rewrite Hh, <- app_assoc.
      by apply list_lookup_total_middle. }
    unfold on_channel, off_channel. rewrite !filter_cons.
    destruct (decide (ch = Channel (message m))) as [Heq|Hne].
    + destruct (IH (Some (length (heap w))) w1)
        as (w' & added & rsp & Hrun & Hh & Hq & Hload & Hrsp).
      exists w', added, rsp.
      destruct (decide (Channel (message m) = ch)); [|congruence].
      destruct (decide (Channel (message m) ≠ ch)); [congruence|].
      split_and!; try done.
      * rewrite Hh. subst w1; simpl. by rewrite <- app_assoc.
      * rewrite last_cons. fold (on_channel ch rest).
        destruct (last (on_channel ch rest)); [done|].
        exists (length (heap w)). split; [done|]. by apply Hcell.
    + unfold bind at 1, enqueue, modify. set (w2 := on_client _ w1).
      destruct (IH reply w2)
        as (w' & added & rsp & Hrun & Hh & Hq & Hload & Hrsp).
      exists w', (length (heap w) :: added), rsp.
      destruct (decide (Channel (message m) = ch)); [congruence|].
      destruct (decide (Channel (message m) ≠ ch)); [|exfalso; auto].
      split_and!; try done.
      * rewrite Hh. subst w2 w1; simpl. by rewrite <- app_assoc.
      * rewrite Hq. subst w2 w1; simpl. by rewrite <- app_assoc.
      * simpl. rewrite Hload. f_equal. apply Hcell. by rewrite Hh.
Qed.

(** X3: on a batch of one envelope the aliasing does not show: an envelope on
    the request's channel is what the caller reads through the reply, and
    any other envelope is what the one new queue entry reads as. *)
Lemma send_single_envelope `{GlobLib} (w : World) (req : request)
    (m : metaMessage) :
  decoded w req [m] →
  ∃ w', heap w' = (heap w ++ [m])%list ∧
        if decide (Channel (message m) = req_Channel req)
        then send req w = Ret (Some (length (heap w)), None) w' ∧
             load (length (heap w)) w' = m ∧
             messages (client w') = messages (client w)
        else send req w = Ret (None, None) w' ∧
             messages (client w') =
               (messages (client w) ++ [length (heap w)])%list ∧
             load (length (heap w)) w' = m.
Proof.
  intros Hdec.
  destruct (send_decoded w req [m] Hdec) as (w' & Hsend & Hh & Hq & _).
  pose proof (load_loop_variable w w' [m] Hh) as Hload.
  exists w'. split; [done|].
  unfold on_channel, off_channel in *. rewrite !filter_cons in *.
  rewrite !filter_nil in *.
  destruct (decide (Channel (message m) = req_Channel req)) as [Heq|Hne].
  - rewrite decide_False in Hq by (by intros ?).
    simpl in Hq. rewrite app_nil_r in Hq. done.
  - rewrite decide_True in Hq by done. done.
Qed.

(** X2: on a decoded batch with an envelope on the
    request's channel, what the caller reads through the reply is the last
    envelope of the batch, whichever envelope was on the request's
    channel. *)
Lemma send_reply_reads_last `{GlobLib} (w : World) (req : request)
    (msgs : list metaMessage) (m : metaMessage) :
  decoded w req msgs →
  m ∈ msgs → Channel (message m) = req_Channel req →
  ∃ rsp w', send req w = Ret (Some rsp, None) w' ∧
            Some (load rsp w') = last msgs ∧
            Forall (λ p, Some (load p w') = last msgs)
                   (drop (length (messages (client w)))
                         (messages (client w'))).
Proof.
  intros Hdec Hin Hch.
  destruct (send_decoded w req msgs Hdec) as (w' & Hsend & Hh & Hq & _).
  pose proof (load_loop_variable w w' msgs Hh) as Hload.
  assert (Hlast : is_Some (last msgs)).
  { destruct msgs; [by apply elem_of_nil in Hin|].
    rewrite last_cons. by destruct (last msgs). }
  destruct Hlast as [x Hx]. rewrite Hx in Hload |- *. simpl in Hload.
  assert (Hne : on_channel (req_Channel req) msgs ≠ []).
  { intros Hnil. assert (m ∈ on_channel (req_Channel req) msgs) as Hm
      by (by apply list_elem_of_filter).
    rewrite Hnil in Hm. by apply elem_of_nil in Hm. }
  exists (length (heap w)), w'. split.
  - rewrite Hsend. by destruct (on_channel _ msgs).
  - split; [by rewrite Hload|].
    rewrite Hq, drop_app_length. apply Forall_replicate. by rewrite Hload.
Qed.

(** ** A batch without a reply *)

(** C9: when the decoded batch has no envelope on the request's channel,
    [send] returns a nil reply and a nil error; and handshake, subscribe,
    Unsubscribe and disconnect, which read [rsp.Successful] next, panic on
    the nil reply exactly in that case. *)
Theorem nil_reply_panics `{GlobLib} (w : World) (req : request)
    (msgs : list metaMessage) :
  decoded w req msgs →
  (on_channel (req_Channel req) msgs = [] →
   ∃ w', send req w = Ret (None, None) w') ∧
  ∀ op, request_of op w = Some req →
    ((∃ w', run_op op w = Panicked nil_dereference w') ↔
     on_channel (req_Channel req) msgs = []).
Proof.
  intros Hdec. split.
  - intros Hnil.
    destruct (send_decoded w req msgs Hdec) as (w' & Hsend & _).
    exists w'. by rewrite Hsend, Hnil.
  - intros op Hreq.
    destruct (op_decoded op w req msgs Hreq Hdec) as (w1 & _ & _ & _ & _ & Hrun).
    rewrite Hrun. destruct (on_channel _ msgs) as [|m0 ms].
    + split; [done|]. intros _. by exists w1.
    + split; [|done]. intros [w' Hp]. simpl in Hp.
      by destruct (Successful _).
Qed.

Lemma nil_reply_panics_witness :
  (∃ w', run_op op_handshake (client_of [ok_batch [pushed "/a" "1"]]) =
           Panicked nil_dereference w') ↔
  on_channel (req_Channel handshake_request) [pushed "/a" "1"] = [].
Proof.
  apply (nil_reply_panics (client_of [ok_batch [pushed "/a" "1"]])
           handshake_request [pushed "/a" "1"]).
  - split; reflexivity.
  - reflexivity.
Defined.

(** ** Patterns that do not compile *)

(** C5: when the pattern does not compile, subscribe returns the error
    [Invalid pattern: <the compiler's message>] and leaves the world as it
    was: nothing is POSTed and the registry is unchanged. *)
Theorem subscribe_invalid_pattern `{GlobLib} (w : World) (pattern : string)
    (out : chan_id) (ext : any_value) (err : string) :
  ohmyglob_Compile pattern = inr err →
  ∃ e w', subscribe pattern out ext w = Ret (Some e) w' ∧
          e = Errorf_Invalid_pattern err ∧
          error_text e = "Invalid pattern: " ++ err ∧
          posted w' = posted w ∧
          subscriptions (client w') = subscriptions (client w) ∧
          w' = w.
Proof.
  intros Hc. exists (Errorf_Invalid_pattern err), w.
  unfold subscribe. rewrite Hc. repeat split; done.
Qed.

Lemma subscribe_invalid_pattern_witness :
  ∃ e w', subscribe "/foo/[ab" 7 nil_value (client_of []) = Ret (Some e) w' ∧
          e = Errorf_Invalid_pattern "unbalanced [" ∧
          error_text e = "Invalid pattern: " ++ "unbalanced [" ∧
          posted w' = posted (client_of []) ∧
          subscriptions (client w') = subscriptions (client_of []).(client) ∧
          w' = client_of [].
Proof.
  apply (subscribe_invalid_pattern (client_of []) "/foo/[ab" 7 nil_value
           "unbalanced [").
  vm_compute. reflexivity.
Defined.

(** ** When [send] fails *)

Lemma send_fails_because_iff `{GlobLib} (w : World) (req : request) :
  send_fails_because w req ↔ ∃ e, failure w req = Some e.
Proof.
  unfold send_fails_because, failure. split.
  - intros [[err Hm]|[[err Ha]|(code & body & Ha & Hb)]].
    + rewrite Hm. eauto.
    + destruct (json_Marshal [req]); [eauto|]. rewrite Ha. eauto.
    + destruct (json_Marshal [req]); [eauto|]. rewrite Ha.
      case_decide; [|eauto].
      destruct Hb as [?|[[err ->]|[err ->]]]; [done|eauto..].
  - intros [e He]. destruct (json_Marshal [req]) as [err|]; [left; eauto|].
    right. destruct (answer w req) as [err|code body]; [left; eauto|].
    right. exists code, body. split; [done|].
    case_decide; [|by left]. right.
    destruct body; [left|right|]; eauto. done.
Qed.

(** C7, as the code has it: [send] returns an error exactly when the request
    cannot be marshalled, the POST itself fails, the status is not 200, or
    the body cannot be read or parsed; with status 200 and a body that
    decodes it returns a nil error.  The error names its cause. *)
Theorem send_error_iff `{GlobLib} (w : World) (req : request) :
  (∃ rsp w', send req w = Ret (rsp, failure w req) w') ∧
  ((∃ rsp e w', send req w = Ret (rsp, Some e) w') ↔
   send_fails_because w req) ∧
  (∀ msgs, decoded w req msgs → ∃ rsp w', send req w = Ret (rsp, None) w').
Proof.
  assert (Hret : ∃ rsp w', send req w = Ret (rsp, failure w req) w').
  { destruct (failure w req) as [e|] eqn:Hf.
    - destruct (send_failure w req e Hf) as (w' & Hs & _). eauto.
    - apply failure_None in Hf as [msgs Hdec].
      destruct (send_decoded w req msgs Hdec) as (w' & Hs & _). eauto. }
  split; [done|]. split.
  - rewrite send_fails_because_iff. destruct Hret as (rsp & w' & Hs).
    split.
    + intros (rsp' & e & w'' & Hs'). rewrite Hs in Hs'.
      injection Hs' as _ He _. eauto.
    + intros [e He]. rewrite He in Hs. eauto.
  - intros msgs Hdec. destruct Hret as (rsp & w' & Hs).
    assert (failure w req = None) as Hn by (apply failure_None; eauto).
    rewrite Hn in Hs. eauto.
Qed.

(** C7, as stated, fails where the transport itself fails: [send] returns
    an error although no response, hence no status and no body, came
    back. *)
Lemma send_fails_without_response :
  ¬ fails_exactly_on_bad_response (client_of []) (connect_request "").
Proof.
  unfold fails_exactly_on_bad_response. intros [Hfwd _].
  destruct Hfwd as (code & body & Ha & _).
  - eexists _, _, _. vm_compute. reflexivity.
  - vm_compute in Ha. discriminate Ha.
Qed.

(** ** The checking operations *)

Section Operations.
Context `{GlobLib}.

(** An operation whose request fails in [send] hands the error on and
    changes nothing but the log of POSTs. *)
Lemma op_failure (op : operation) (w : World) (req : request) (e : error) :
  request_of op w = Some req →
  failure w req = Some e →
  ∃ w', run_op op w = Ret (Some e) w' ∧
        heap w' = heap w ∧
        messages (client w') = messages (client w) ∧
        same_session w w'.
Proof.
  intros Hreq Hf.
  destruct (send_failure w req e Hf) as (w' & Hsend & Hh & Hq & Hs & _).
  exists w'. repeat split; try apply Hs; try done.
  assert (Hgen : ∀ k : metaMessage → M unit,
    bind (send req) (λ sent, checked sent k) w = Ret (Some e) w').
  { intros k. unfold bind. by rewrite Hsend. }
  destruct op as [|pattern out ext|pattern|]; simpl in Hreq |- *.
  - injection Hreq as <-. unfold handshake. by rewrite Hgen.
  - unfold subscribe.
    destruct (ohmyglob_Compile pattern) as [g|] eqn:Hc; [|done].
    injection Hreq as <-. unfold bind at 1, get. by rewrite Hgen.
  - injection Hreq as <-. unfold Unsubscribe, bind at 1, get. by rewrite Hgen.
  - injection Hreq as <-. unfold disconnect, bind at 1, get. by rewrite Hgen.
Qed.

(** An operation that returns nil got a decoded batch with an envelope on
    its channel, found [Successful] set in the last envelope of the batch,
    and applied its effect. *)
Lemma op_returns_nil (op : operation) (w w' : World) :
  run_op op w = Ret None w' →
  ∃ req msgs r w1,
    request_of op w = Some req ∧ decoded w req msgs ∧
    on_channel (req_Channel req) msgs ≠ [] ∧
    last msgs = Some r ∧ Successful r = true ∧
    same_session w w1 ∧
    w' = on_client (on_success op r) w1.
Proof.
  intros Hrun.
  destruct (request_of op w) as [req|] eqn:Hreq.
  2:{ destruct op; simpl in Hreq; try done.
      simpl in Hrun. unfold subscribe in Hrun.
      by destruct (ohmyglob_Compile pattern). }
  destruct (failure w req) as [e|] eqn:Hf.
  { destruct (op_failure op w req e Hreq Hf) as (w1 & Hr & _).
    rewrite Hr in Hrun. done. }
  apply failure_None in Hf as [msgs Hdec].
  destruct (op_decoded op w req msgs Hreq Hdec)
    as (w1 & _ & _ & _ & Hs & Hr).
  rewrite Hr in Hrun.
  destruct (on_channel (req_Channel req) msgs) as [|m0 ms] eqn:Hon; [done|].
  assert (is_Some (last msgs)) as [r Hlast].
  { destruct msgs as [|m1 msgs']; [done|].
    rewrite last_cons. by destruct (last msgs'). }
  rewrite Hlast in Hrun. simpl in Hrun.
  destruct (Successful r) eqn:Hok; [|done].
  injection Hrun as <-.
  exists req, msgs, r, w1. rewrite Hon. split_and!; done.
Qed.

(** Whatever an operation returns, it leaves the connection as it was. *)
Lemma op_keeps_connection (op : operation) (w w' : World)
    (r : option error) :
  run_op op w = Ret r w' →
  tomb (client w') = tomb (client w) ∧
  connected (client w') = connected (client w) ∧
  workers w' = workers w ∧
  http (client w') = http (client w) ∧
  url (client w') = url (client w) ∧
  logged w' = logged w ∧
  delivered w' = delivered w.
Proof.
  intros Hrun.
  destruct (request_of op w) as [req|] eqn:Hreq.
  2:{ destruct op; simpl in Hreq; try done.
      simpl in Hrun. unfold subscribe in Hrun.
      destruct (ohmyglob_Compile pattern); [done|].
      by injection Hrun as _ <-. }
  destruct (failure w req) as [e|] eqn:Hf.
  { destruct (op_failure op w req e Hreq Hf) as (w1 & Hr & _ & _ & Hs).
    rewrite Hr in Hrun. injection Hrun as _ <-.
    session Hs. split_and!; congruence. }
  apply failure_None in Hf as [msgs Hdec].
  destruct (op_decoded op w req msgs Hreq Hdec)
    as (w1 & _ & _ & _ & Hs & Hr).
  rewrite Hr in Hrun. session Hs.
  destruct (on_channel (req_Channel req) msgs); [done|].
  simpl in Hrun. destruct (Successful _).
  - injection Hrun as _ <-.
    destruct op; simpl; try (split_and!; congruence).
    destruct (ohmyglob_Compile pattern); simpl; split_and!; congruence.
  - injection Hrun as _ <-. split_and!; congruence.
Qed.

(** Only subscribe and Unsubscribe touch the registry, and only when they
    return nil. *)
Lemma op_error_keeps_registry (op : operation) (w w' : World) (e : error) :
  run_op op w = Ret (Some e) w' →
  subscriptions (client w') = subscriptions (client w).
Proof.
  intros Hrun.
  destruct (request_of op w) as [req|] eqn:Hreq.
  2:{ destruct op; simpl in Hreq; try done.
      simpl in Hrun. unfold subscribe in Hrun.
      destruct (ohmyglob_Compile pattern); [done|].
      by injection Hrun as _ <-. }
  destruct (failure w req) as [e'|] eqn:Hf.
  { destruct (op_failure op w req e' Hreq Hf) as (w1 & Hr & _ & _ & Hs).
    rewrite Hr in Hrun. injection Hrun as _ <-.
    session Hs. congruence. }
  apply failure_None in Hf as [msgs Hdec].
  destruct (op_decoded op w req msgs Hreq Hdec)
    as (w1 & _ & _ & _ & Hs & Hr).
  rewrite Hr in Hrun. session Hs.
  destruct (on_channel (req_Channel req) msgs); [done|].
  simpl in Hrun. destruct (Successful _); [done|].
  injection Hrun as _ <-. congruence.
Qed.

End Operations.

(** ** The registry *)

Section Registry.
Context `{GlobLib}.

Lemma routes_nil (visit : list (string * entry)) :
  routes visit = [] ↔
  ∀ k s, (k, a_subscription s) ∉ visit.
Proof.
  unfold routes. induction visit as [|[k e] visit IH]; simpl.
  - split; [|done]. intros _ k s Hin. by apply elem_of_nil in Hin.
  - destruct e as [s|str]; simpl.
    + split; [done|]. intros Hno. destruct (Hno k s). apply list_elem_of_here.
    + rewrite IH. split.
      * intros Hno k' s' Hin. apply elem_of_cons in Hin as [Heq|Hin];
          [done|by apply (Hno k' s')].
      * intros Hno k' s' Hin. apply (Hno k' s'). by apply list_elem_of_further.
Qed.

(** Visiting the map in another order permutes the routes. *)
#[global] Instance routes_Permutation : Proper ((≡ₚ) ==> (≡ₚ)) routes.
Proof. intros l1 l2 Hl. unfold routes. by rewrite Hl. Qed.

#[global] Instance matching_Permutation (channel : string) :
  Proper ((≡ₚ) ==> (≡ₚ)) (matching channel).
Proof. intros l1 l2 Hl. unfold matching. by rewrite Hl. Qed.

(** The routes after [c.subscriptions[key] = e]. *)
Lemma routes_insert (subs : gmap string entry) (key : string) (e : entry) :
  routes (map_to_list (<[key := e]> subs)) ≡ₚ
  (routes [(key, e)] ++ routes (map_to_list (delete key subs)))%list.
Proof.
  rewrite <- insert_delete_eq.
  rewrite map_to_list_insert by apply lookup_delete_eq.
  unfold routes. simpl. by destruct e.
Qed.

Lemma routes_delete_nil (subs : gmap string entry) (key : string) :
  routes (map_to_list subs) = [] →
  routes (map_to_list (delete key subs)) = [].
Proof.
  rewrite !routes_nil. intros Hno k s Hin.
  apply elem_of_map_to_list in Hin. apply lookup_delete_Some in Hin as [_ Hin].
  apply (Hno k s). by apply elem_of_map_to_list.
Qed.

(** subscribe that returned nil has stored the subscription under the
    canonical string of the compiled pattern. *)
Lemma subscribe_registers (w w' : World) (pattern : string) (out : chan_id)
    (ext : any_value) (g : Glob) :
  ohmyglob_Compile pattern = inl g →
  subscribe pattern out ext w = Ret None w' →
  subscriptions (client w') =
    <[Glob_String g := a_subscription (mkSubscription g out)]>
      (subscriptions (client w)).
Proof.
  intros Hc Hrun.
  destruct (op_returns_nil (op_subscribe pattern out ext) w w' Hrun)
    as (req & msgs & r & w1 & _ & _ & _ & _ & _ & Hs & ->).
  session Hs. simpl. rewrite Hc. simpl. congruence.
Qed.

(** Unsubscribe that returned nil has stored the empty string under the
    pattern as given. *)
Lemma Unsubscribe_forgets (w w' : World) (pattern : string) :
  Unsubscribe pattern w = Ret None w' →
  subscriptions (client w') =
    <[pattern := a_string ""]> (subscriptions (client w)).
Proof.
  intros Hrun.
  destruct (op_returns_nil (op_Unsubscribe pattern) w w' Hrun)
    as (req & msgs & r & w1 & _ & _ & _ & _ & _ & Hs & ->).
  session Hs. simpl. congruence.
Qed.

End Registry.

(** C4: after two subscribe calls that returned nil and whose patterns
    compile to the same canonical string, the registry is the one before
    the two calls with that key bound to the second call's subscription;
    it routes to that subscription and to the routes under other keys, and
    a registry that routed nothing before has exactly this one route. *)
Theorem resubscribe_last_wins `{GlobLib} (w w1 w2 : World)
    (p1 p2 : string) (out1 out2 : chan_id) (ext1 ext2 : any_value)
    (g1 g2 : Glob) :
  ohmyglob_Compile p1 = inl g1 →
  ohmyglob_Compile p2 = inl g2 →
  Glob_String g1 = Glob_String g2 →
  subscribe p1 out1 ext1 w = Ret None w1 →
  subscribe p2 out2 ext2 w1 = Ret None w2 →
  subscriptions (client w2) =
    <[Glob_String g2 := a_subscription (mkSubscription g2 out2)]>
      (subscriptions (client w)) ∧
  subscriptions (client w2) !! Glob_String g2 =
    Some (a_subscription (mkSubscription g2 out2)) ∧
  routes (map_to_list (subscriptions (client w2))) ≡ₚ
    mkSubscription g2 out2 ::
    routes (map_to_list (delete (Glob_String g2) (subscriptions (client w)))) ∧
  (routes (map_to_list (subscriptions (client w))) = [] →
   routes (map_to_list (subscriptions (client w2))) = [mkSubscription g2 out2]).
Proof.
  intros Hc1 Hc2 Hkey Hs1 Hs2.
  apply (subscribe_registers _ _ _ _ _ g1 Hc1) in Hs1.
  apply (subscribe_registers _ _ _ _ _ g2 Hc2) in Hs2.
  assert (Hreg : subscriptions (client w2) =
    <[Glob_String g2 := a_subscription (mkSubscription g2 out2)]>
      (subscriptions (client w))).
  { rewrite Hs2, Hs1, Hkey. apply insert_insert_eq. }
  split; [done|]. split; [rewrite Hreg; apply lookup_insert_eq|].
  split.
  - rewrite Hreg. by rewrite routes_insert.
  - intros Hnone. apply Permutation_singleton_r.
    rewrite Hreg, routes_insert. simpl.
    by rewrite (routes_delete_nil _ _ Hnone).
Qed.

Lemma resubscribe_last_wins_witness :
  let w1 := after (subscribe "/foo/*" 1 nil_value) agreeable_client in
  let w2 := after (subscribe " /foo/* " 2 nil_value) w1 in
  subscriptions (client w2) !! "/foo/*" =
    Some (a_subscription (mkSubscription foo_star 2)) ∧
  routes (map_to_list (subscriptions (client w2))) = [mkSubscription foo_star 2].
Proof.
  intros w1 w2.
  destruct (resubscribe_last_wins agreeable_client w1 w2
              "/foo/*" " /foo/* " 1 2 nil_value nil_value foo_star foo_star)
    as (_ & Hlook & _ & Hone);
    [vm_compute; reflexivity..|].
  split; [exact Hlook|]. apply Hone. vm_compute. reflexivity.
Defined.

(** ** Unsubscribe *)

(** When the refusal is the last envelope of the batch (as when it is the
    only one), Unsubscribe returns the server's error string and leaves the
    registry alone. *)
Lemma Unsubscribe_refused_last `{GlobLib} (w : World) (pattern : string)
    (msgs : list metaMessage) (r : metaMessage) :
  decoded w (unsubscribe_request (clientId (client w)) pattern) msgs →
  last msgs = Some r →
  Channel (message r) = "/meta/unsubscribe" →
  Successful r = false →
  ∃ w', Unsubscribe pattern w = Ret (Some (errors_New (Error r))) w' ∧
        subscriptions (client w') = subscriptions (client w).
Proof.
  intros Hdec Hlast Hch Hno.
  destruct (op_decoded (op_Unsubscribe pattern) w _ msgs eq_refl Hdec)
    as (w1 & _ & _ & _ & Hs & Hrun).
  simpl in Hrun. rewrite Hlast in Hrun. simpl in Hrun. rewrite Hno in Hrun.
  assert (Hin : r ∈ on_channel "/meta/unsubscribe" msgs).
  { apply list_elem_of_filter. split; [done|].
    apply last_Some in Hlast as [l' ->]. set_solver. }
  destruct (on_channel "/meta/unsubscribe" msgs);
    [by apply elem_of_nil in Hin|].
  exists w1. split; [done|]. session Hs. congruence.
Qed.

(** C6, at a refusal followed by another envelope: Unsubscribe reads
    [Successful] and [Error] through the address of the loop variable of
    [send], which by then holds the envelope after the refusal.  Followed by
    a pushed message, the refusal [Unknown client] comes back as an error
    with the empty text; followed by an envelope that says [successful],
    Unsubscribe returns nil and overwrites the registry entry. *)
Theorem Unsubscribe_refusal_overwritten :
  (∃ e w',
     Unsubscribe "/foo/*"
       (subscribed_client [ok_batch [refusal; pushed "/chat/1" "hi"]]) =
       Ret (Some e) w' ∧
     error_text e = "" ∧
     ¬ ∃ before behind, error_text e = before ++ Error refusal ++ behind) ∧
  (∃ w',
     Unsubscribe "/foo/*"
       (subscribed_client
          [ok_batch [refusal; reply_on "/meta/connect" true ""]]) =
       Ret None w' ∧
     subscriptions
       (client (subscribed_client
          [ok_batch [refusal; reply_on "/meta/connect" true ""]])) !! "/foo/*" =
       Some (a_subscription (mkSubscription foo_star 7)) ∧
     subscriptions (client w') !! "/foo/*" = Some (a_string "")).
Proof.
  split.
  - eexists _, _. split; [vm_compute; reflexivity|]. split; [done|].
    intros (before & behind & Heq). simpl in Heq.
    destruct before; discriminate Heq.
  - eexists. split; [vm_compute; reflexivity|]. split; vm_compute; reflexivity.
Qed.

(** X17: Unsubscribe that returned nil has bound the pattern as given to
    the empty string, and the registry routes as if that key had been
    deleted: a subscription stored under that very key (the canonical string
    of its pattern being the pattern as given) is no longer routed. *)
Lemma Unsubscribe_unroutes `{GlobLib} (w w' : World) (pattern : string) :
  Unsubscribe pattern w = Ret None w' →
  subscriptions (client w') !! pattern = Some (a_string "") ∧
  routes (map_to_list (subscriptions (client w'))) ≡ₚ
    routes (map_to_list (delete pattern (subscriptions (client w)))).
Proof.
  intros Hrun. apply Unsubscribe_forgets in Hrun. rewrite Hrun.
  split; [apply lookup_insert_eq|]. by rewrite routes_insert.
Qed.

(** C3, at a pattern with white space around it: subscribe stores the
    subscription under the canonical string [/foo/*], Unsubscribe stores the
    empty string under the pattern as given.  Both calls return nil, the
    subscription stays in the registry, and a message on [/foo/bar] that
    arrives afterwards is still delivered to its output channel. *)
Theorem Unsubscribe_misses_canonical_key :
  let w0 := client_of session_script in
  let w1 := after (Subscribe " /foo/*" 7) w0 in
  let w2 := after (Unsubscribe " /foo/*") w1 in
  let w3 := after (worker_turn timer_fired) w2 in
  let visit := map_to_list (subscriptions (client w3)) in
  let w4 := after (worker_turn (message_ready visit)) w3 in
  Subscribe " /foo/*" 7 w0 = Ret None w1 ∧
  Unsubscribe " /foo/*" w1 = Ret None w2 ∧
  subscriptions (client w2) !! " /foo/*" = Some (a_string "") ∧
  subscriptions (client w2) !! "/foo/*" =
    Some (a_subscription (mkSubscription foo_star 7)) ∧
  worker_turn timer_fired w2 = Ret continue w3 ∧
  worker_turn (message_ready visit) w3 = Ret continue w4 ∧
  delivered w3 = [] ∧
  ∃ msg, delivered w4 = [(7, msg)] ∧
         message (load msg w4) = message (pushed "/foo/bar" "hi").
Proof.
  intros w0 w1 w2 w3 visit w4.
  split_and!; try (vm_compute; reflexivity).
  eexists. split; vm_compute; reflexivity.
Qed.

(** ** The worker *)

Section Worker.
Context `{GlobLib}.

(** The fan-out loop sends the message once to the output channel of every
    visited subscription whose matcher takes the message's channel, in the
    order of the visit, and does nothing else. *)
Lemma fan_out_spec (msg : loc) (visit : list (string * entry)) (w : World) :
  fan_out msg visit w =
    Ret tt (with_delivered
              (delivered w ++
               map (λ s, (out s, msg))
                   (matching (Channel (message (load msg w))) visit))%list
              w).
Proof.
  revert w. induction visit as [|[key e] visit IH]; intros w.
  - simpl. rewrite app_nil_r. by destruct w.
  - cbn [fan_out]. unfold matching, routes. simpl.
    destruct e as [s|str]; simpl.
    + unfold bind at 1. unfold bind at 1. unfold get.
      rewrite filter_cons.
      destruct (Glob_MatchString (glob s) (Channel (message (load msg w))))
        eqn:Hm.
      * rewrite decide_True by done.
        unfold deliver, modify. rewrite IH. unfold load; simpl.
        by rewrite <- app_assoc.
      * rewrite decide_False by (by intros ?).
        unfold ret. rewrite IH. done.
    + unfold bind at 1, ret. by rewrite IH.
Qed.

Lemma elem_of_matching (channel : string) (subs : gmap string entry)
    (visit : list (string * entry)) (s : subscription) :
  visit ≡ₚ map_to_list subs →
  s ∈ matching channel visit ↔
  ∃ key, subs !! key = Some (a_subscription s) ∧
         Glob_MatchString (glob s) channel = true.
Proof.
  intros Hv. rewrite Hv. unfold matching, routes.
  rewrite list_elem_of_filter, list_elem_of_omap. split.
  - intros [Hm ([key e] & Hin & He)]. simpl in He.
    destruct e as [s'|]; [|done]. injection He as ->.
    exists key. split; [|done]. by apply elem_of_map_to_list.
  - intros (key & Hk & Hm). split; [done|].
    exists (key, a_subscription s). split; [|done].
    by apply elem_of_map_to_list.
Qed.

End Worker.

(** C2: taking a message from the queue, the worker sends it to the output
    channel of every subscription in the registry whose matcher takes the
    message's channel, once per such subscription, and to no other output
    channel: a destination receives the message only through a
    subscription whose matcher takes the channel. *)
Theorem worker_fans_out `{GlobLib} (w : World) (t : Tomb) (msg : loc)
    (queue : list loc) (visit : list (string * entry)) :
  tomb (client w) = Some t →
  messages (client w) = msg :: queue →
  visit ≡ₚ map_to_list (subscriptions (client w)) →
  ∃ w' sent,
    worker_turn (message_ready visit) w = Ret continue w' ∧
    messages (client w') = queue ∧
    delivered w' = (delivered w ++ sent)%list ∧
    sent ≡ₚ map (λ s, (out s, msg))
              (matching (Channel (message (load msg w)))
                        (map_to_list (subscriptions (client w)))) ∧
    (∀ key s, subscriptions (client w) !! key = Some (a_subscription s) →
       Glob_MatchString (glob s) (Channel (message (load msg w))) = true →
       (out s, msg) ∈ sent) ∧
    (∀ d m, (d, m) ∈ sent →
       m = msg ∧
       ∃ key s, subscriptions (client w) !! key = Some (a_subscription s) ∧
                out s = d ∧
                Glob_MatchString (glob s) (Channel (message (load msg w)))
                  = true).
Proof.
  intros Ht Hq Hv.
  set (channel := Channel (message (load msg w))).
  exists (with_delivered
            (delivered w ++ map (λ s, (out s, msg)) (matching channel visit))%list
            (on_client (with_messages queue) w)),
         (map (λ s, (out s, msg)) (matching channel visit)).
  split_and!; try done.
  - unfold worker_turn, bind at 1, get. rewrite Ht, Hq.
    unfold bind at 1, modify. unfold bind at 1. by rewrite fan_out_spec.
  - by rewrite Hv.
  - intros key s Hk Hm. apply list_elem_of_fmap. exists s. split; [done|].
    apply (elem_of_matching channel _ visit s Hv). eauto.
  - intros d m Hin. apply list_elem_of_fmap in Hin as (s & Heq & Hs).
    injection Heq as -> ->. split; [done|].
    apply (elem_of_matching channel _ visit s Hv) in Hs as (key & Hk & Hm).
    eauto.
Qed.

Lemma worker_fans_out_witness :
  ∃ w',
    worker_turn
      (message_ready (map_to_list (subscriptions (client routing_client))))
      routing_client = Ret continue w' ∧
    delivered w' = [(7, 3)].
Proof.
  destruct (worker_fans_out routing_client (mkTomb false) 3 []
              (map_to_list (subscriptions (client routing_client))))
    as (w' & sent & Hrun & _ & Hd & Hperm & _);
    [vm_compute; reflexivity | vm_compute; reflexivity | reflexivity |].
  exists w'. split; [exact Hrun|]. rewrite Hd.
  vm_compute in Hperm. apply Permutation_singleton_r in Hperm.
  rewrite Hperm. reflexivity.
Defined.

(** ** Connecting, polling and closing *)

Section Lifecycle.
Context `{GlobLib}.

Lemma ensureConnected_cases (w w' : World) (r : option error) :
  ensureConnected w = Ret r w' →
  (connected (client w) = true ∧ r = None ∧ w' = w) ∨
  (connected (client w) = false ∧
   ∃ e, r = Some e ∧ handshake w = Ret (Some e) w') ∨
  (connected (client w) = false ∧ r = None ∧
   ∃ w1, handshake w = Ret None w1 ∧
         w' = with_workers (S (workers w1))
                (on_client (with_tomb (Some (mkTomb false)))
                   (on_client (with_connected true) w1))).
Proof.
  unfold ensureConnected, bind at 1, get.
  destruct (connected (client w)) eqn:Hc.
  { intros [= <- <-]. by left. }
  unfold bind at 1, get. rewrite Hc. unfold bind at 1.
  destruct (handshake w) as [[e|] w1|] eqn:Hh; [| |done].
  - intros [= <- <-]. right. left. eauto.
  - intros [= <- <-]. right. right. eauto.
Qed.

(** [ensureConnected] lets the tomb be or makes a live one. *)
Lemma ensureConnected_tomb (w w' : World) (r : option error) :
  ensureConnected w = Ret r w' →
  tomb (client w') = tomb (client w) ∨
  tomb (client w') = Some (mkTomb false).
Proof.
  intros Hrun.
  destruct (ensureConnected_cases w w' r Hrun)
    as [(_ & _ & ->)|[(_ & e & _ & Hh)|(_ & _ & w1 & _ & ->)]].
  - by left.
  - left. by apply (op_keeps_connection op_handshake) in Hh as (? & _).
  - by right.
Qed.

(** One turn of the worker leaves the tomb, the connection and the registry
    alone, and the worker returns from it only on the dying tomb. *)
Lemma worker_turn_keeps (ev : event) (w w' : World) (f : flow) :
  worker_turn ev w = Ret f w' →
  tomb (client w') = tomb (client w) ∧
  connected (client w') = connected (client w) ∧
  subscriptions (client w') = subscriptions (client w) ∧
  workers w' = workers w ∧
  (f = continue ∨ f = returned None ∧ ev = tomb_dying).
Proof.
  unfold worker_turn, bind at 1, get.
  destruct (tomb (client w)) as [t|] eqn:Ht; [|done].
  destruct ev as [visit| |].
  - destruct (messages (client w)) as [|msg queue] eqn:Hq.
    + intros [= <- <-]. split_and!; try done. by left.
    + unfold bind at 1, modify. unfold bind at 1. rewrite fan_out_spec.
      intros [= <- <-]. simpl. split_and!; try done. by left.
  - intros [= <- <-]. split_and!; try done. by right.
  - unfold bind at 1, connect, bind at 1, get.
    set (req := connect_request _).
    destruct (failure w req) as [e|] eqn:Hf.
    + destruct (send_failure w req e Hf) as (w1 & -> & _ & _ & Hs & _).
      unfold bind, modify, ret. intros [= <- <-]. session Hs. simpl.
      split_and!; try congruence. by left.
    + apply failure_None in Hf as [msgs Hdec].
      destruct (send_decoded w req msgs Hdec) as (w1 & -> & _ & _ & _ & Hs).
      unfold ret. intros [= <- <-]. session Hs.
      split_and!; try congruence. by left.
Qed.

(** A timer turn always goes on to the next turn.  When the connect request
    fails, the failure is logged, one line, and nothing else changes but the
    log of POSTs. *)
Lemma worker_turn_timer (w : World) (t : Tomb) :
  tomb (client w) = Some t →
  ∃ w', worker_turn timer_fired w = Ret continue w' ∧
        ∀ e, failure w (connect_request (clientId (client w))) = Some e →
             logged w' = (logged w ++ [warning e])%list ∧
             client w' = client w ∧ heap w' = heap w ∧
             delivered w' = delivered w ∧ workers w' = workers w ∧
             posted w' =
               (posted w ++
                [(url (client w), "application/json",
                  [connect_request (clientId (client w))])])%list.
Proof.
  intros Ht. unfold worker_turn, bind at 1, get. rewrite Ht.
  unfold bind at 1, connect, bind at 1, get.
  set (req := connect_request _).
  destruct (failure w req) as [e|] eqn:Hf.
  - pose proof Hf as Hf'. unfold failure in Hf'. simpl in Hf'.
    unfold send. simpl. unfold bind at 1. unfold Post, bind, get, modify, ret.
    simpl. fold req. unfold answer in Hf'. fold req in Hf'.
    destruct (http (client w) (posted w) _) as [err|code body].
    + eexists. split; [reflexivity|]. intros e' [= <-]. injection Hf' as <-.
      simpl. split_and!; done.
    + destruct (decide (code = 200%Z)) as [->|Hne].
      * rewrite decide_False by (by intros ?).
        destruct body as [err|err|msgs]; [| |done];
          (eexists; split; [reflexivity|]; intros e' [= <-];
           injection Hf' as <-; simpl; split_and!; done).
      * rewrite decide_True by done.
        eexists. split; [reflexivity|]. intros e' [= <-].
        injection Hf' as <-.
        simpl. split_and!; done.
  - apply failure_None in Hf as [msgs Hdec].
    destruct (send_decoded w req msgs Hdec) as (w1 & -> & _).
    exists w1. split; [done|]. intros e. done.
Qed.

(** The caller's operations, and the worker's turns, never kill the tomb:
    only Close does. *)
Lemma perform_not_dying (a : action) (w w' : World) (r : option error) :
  a ≠ do_Close →
  perform a w = Ret r w' →
  not_dying w → not_dying w'.
Proof.
  intros Ha Hrun Hlive.
  assert (Hec : ∀ w1 r1, ensureConnected w = Ret r1 w1 → not_dying w1).
  { intros w1 r1 He t1 Ht1.
    destruct (ensureConnected_tomb w w1 r1 He) as [Heq|Heq];
      rewrite Heq in Ht1; [by apply Hlive|]. by injection Ht1 as <-. }
  assert (Hsub : ∀ pattern out ext,
    SubscribeExt pattern out ext w = Ret r w' → not_dying w').
  { intros pattern out ext. unfold SubscribeExt, bind.
    destruct (ensureConnected w) as [[e|] w1|] eqn:He; [| |done].
    - intros [= <- <-]. by apply (Hec _ _ eq_refl).
    - intros Hs t1 Ht1.
      apply (op_keeps_connection (op_subscribe pattern out ext)) in Hs
        as (Heq & _).
      rewrite Heq in Ht1. by apply (Hec _ _ eq_refl). }
  destruct a as [|pattern out|pattern out ext|pattern| |ev]; simpl in Hrun.
  - by apply (Hec _ _ Hrun).
  - by apply (Hsub pattern out nil_value).
  - by apply (Hsub pattern out ext).
  - intros t1 Ht1.
    apply (op_keeps_connection (op_Unsubscribe pattern)) in Hrun as (Heq & _).
    rewrite Heq in Ht1. by apply Hlive.
  - done.
  - unfold bind at 1 in Hrun.
    destruct (worker_turn ev w) as [f w1|] eqn:Hturn; [|done].
    apply worker_turn_keeps in Hturn as (Heq & _).
    intros t1 Ht1. apply Hlive.
    destruct f; unfold bind, modify, ret in Hrun; simpl in Hrun;
      injection Hrun as _ <-; simpl in Ht1; congruence.
Qed.

End Lifecycle.

Section Polling.
Context `{GlobLib}.

Lemma refuses_failure (w : World) (req : request) :
  refuses (http (client w)) (posted w) →
  json_Marshal [req] = inr [req] →
  ∃ e, failure w req = Some e.
Proof.
  intros Href Hm. unfold failure, answer. rewrite Hm.
  specialize (Href [] (url (client w), "application/json", [req])).
  rewrite app_nil_r in Href.
  destruct (http _ _ _) as [err|code body]; [eauto|].
  case_decide; [|eauto].
  destruct Href as [?|[[err ->]|[err ->]]]; [done|eauto..].
Qed.

Lemma refuses_later (h : HttpClient) (sofar : list post) (p : post) :
  refuses h sofar → refuses h (sofar ++ [p]).
Proof.
  intros Href more q. specialize (Href (p :: more) q).
  by rewrite <- app_assoc.
Qed.

(** A timer turn as an action of the program. *)
Lemma perform_timer (w : World) (t : Tomb) :
  tomb (client w) = Some t →
  ∃ w', perform (do_worker timer_fired) w = Ret None w' ∧
        workers w' = workers w ∧
        tomb (client w') = tomb (client w) ∧
        ∀ e, failure w (connect_request (clientId (client w))) = Some e →
             logged w' = (logged w ++ [warning e])%list ∧
             client w' = client w ∧
             posted w' =
               (posted w ++
                [(url (client w), "application/json",
                  [connect_request (clientId (client w))])])%list.
Proof.
  intros Ht. destruct (worker_turn_timer w t Ht) as (w' & Hturn & Hfail).
  exists w'. simpl. unfold bind. rewrite Hturn.
  apply worker_turn_keeps in Hturn as (Htomb & _ & _ & Hw & _).
  split_and!; try done.
  intros e He. destruct (Hfail e He) as (? & ? & _ & _ & _ & ?). done.
Qed.

(** Connect requests that fail, however many in a row, leave the worker
    running: each adds one line to the log and nothing else. *)
Lemma run_failed_connects (n : nat) (w : World) (t : Tomb) :
  tomb (client w) = Some t →
  0 < workers w →
  refuses (http (client w)) (posted w) →
  ∃ w', run w (replicate n (do_worker timer_fired)) w' ∧
        workers w' = workers w ∧
        client w' = client w ∧
        length (logged w') = length (logged w) + n.
Proof.
  revert w. induction n as [|n IH]; intros w Ht Hw Href.
  - exists w. split; [constructor|]. split_and!; [done..|lia].
  - destruct (perform_timer w t Ht) as (w1 & Hstep & Hw1 & Ht1 & Hfail).
    destruct (refuses_failure w (connect_request (clientId (client w))) Href
                eq_refl) as [e He].
    destruct (Hfail e He) as (Hlog & Hc & Hp).
    destruct (IH w1) as (w' & Hrun & Hw' & Hc' & Hlen).
    + by rewrite Ht1.
    + by rewrite Hw1.
    + rewrite Hc, Hp. by apply refuses_later.
    + exists w'. split.
      * simpl. eapply run_step; [|exact Hstep|exact Hrun]. by split.
      * split_and!; [congruence..|].
        rewrite Hlen, Hlog, length_app. simpl. lia.
Qed.

(** In a run that starts with a live tomb, the worker takes the dying case
    only after a call of Close. *)
Lemma run_returns_after_Close (w w' : World) (acts : list action) (i : nat) :
  run w acts w' →
  not_dying w →
  acts !! i = Some (do_worker tomb_dying) →
  ∃ j, j < i ∧ acts !! j = Some do_Close.
Proof.
  intros Hrun. revert i.
  induction Hrun as [w|w a r w1 acts w2 Hen Hstep Hrun IH]; intros i Hlive Hi.
  - done.
  - destruct i as [|i]; simpl in Hi.
    + injection Hi as ->. destruct Hen as [_ (t & Ht & Hd)].
      specialize (Hlive t Ht). congruence.
    + assert (a = do_Close ∨ a ≠ do_Close) as [->|Hne]
        by (destruct a; (by left) || (by right)).
      * exists 0. split; [lia|done].
      * destruct (IH i) as (j & Hj & Hcl); [|done|].
        -- by apply (perform_not_dying a w w1 r).
        -- exists (S j). split; [lia|done].
Qed.

End Polling.

Section Workers.
Context `{GlobLib}.

(** But for Close, no action of a program with a live tomb makes a worker
    return. *)
Lemma perform_keeps_workers (a : action) (w w' : World) (r : option error) :
  a ≠ do_Close →
  enabled a w →
  not_dying w →
  perform a w = Ret r w' →
  (workers w ≤ workers w')%nat.
Proof.
  intros Ha Hen Hlive Hrun.
  assert (Hec : ∀ w1 r1, ensureConnected w = Ret r1 w1 →
                         (workers w ≤ workers w1)%nat).
  { intros w1 r1 He.
    destruct (ensureConnected_cases w w1 r1 He)
      as [(_ & _ & ->)|[(_ & e & _ & Hh)|(_ & _ & w2 & Hh & ->)]].
    - done.
    - apply (op_keeps_connection op_handshake) in Hh as (_ & _ & -> & _).
      done.
    - apply (op_keeps_connection op_handshake) in Hh as (_ & _ & Hh & _).
      simpl. lia. }
  assert (Hsub : ∀ pattern out ext,
    SubscribeExt pattern out ext w = Ret r w' → (workers w ≤ workers w')%nat).
  { intros pattern out ext. unfold SubscribeExt, bind.
    destruct (ensureConnected w) as [[e|] w1|] eqn:He; [| |done].
    - intros [= <- <-]. by apply (Hec _ _ eq_refl).
    - intros Hs.
      apply (op_keeps_connection (op_subscribe pattern out ext)) in Hs
        as (_ & _ & -> & _).
      by apply (Hec _ _ eq_refl). }
  destruct a as [|pattern out|pattern out ext|pattern| |ev]; simpl in Hrun.
  - by apply (Hec _ _ Hrun).
  - by apply (Hsub pattern out nil_value).
  - by apply (Hsub pattern out ext).
  - apply (op_keeps_connection (op_Unsubscribe pattern)) in Hrun
      as (_ & _ & -> & _). done.
  - done.
  - unfold bind at 1 in Hrun.
    destruct (worker_turn ev w) as [f w1|] eqn:Hturn; [|done].
    apply worker_turn_keeps in Hturn as (_ & _ & _ & Hw & [->|[-> ->]]).
    + injection Hrun as _ <-. lia.
    + destruct Hen as [_ (t & Ht & Hd)]. specialize (Hlive t Ht). congruence.
Qed.

Lemma run_keeps_workers (w w' : World) (acts : list action) :
  run w acts w' →
  not_dying w →
  do_Close ∉ acts →
  (workers w ≤ workers w')%nat.
Proof.
  induction 1 as [w|w a r w1 acts w2 Hen Hstep Hrun IH]; intros Hlive Hno.
  - done.
  - apply not_elem_of_cons in Hno as [Hne Hno].
    assert (a ≠ do_Close) as Ha by congruence.
    pose proof (perform_keeps_workers a w w1 r Ha Hen Hlive Hstep).
    pose proof (perform_not_dying a w w1 r Ha Hstep Hlive).
    specialize (IH ltac:(done) Hno). lia.
Qed.

(** Before any [ensureConnected] has returned nil there is no tomb, no
    connection and no worker. *)
Lemma never_connected_inv (w : World) :
  never_connected w →
  tomb (client w) = None ∧ connected (client w) = false ∧ workers w = 0.
Proof.
  induction 1 as [dflt url h|w a r w' Hnc (Ht & Hc & Hw) Hen Hstep Hfail].
  - done.
  - assert (Hec : ∀ e w1, ensureConnected w = Ret (Some e) w1 →
      tomb (client w1) = None ∧ connected (client w1) = false ∧
      workers w1 = 0).
    { intros e w1 He.
      destruct (ensureConnected_cases w w1 _ He)
        as [(_ & ? & _)|[(_ & e' & _ & Hh)|(_ & ? & _)]]; [done| |done].
      apply (op_keeps_connection op_handshake) in Hh
        as (-> & -> & -> & _). done. }
    assert (Hsub : ∀ pattern out ext,
      SubscribeExt pattern out ext w = Ret r w' →
      (∀ w1, ensureConnected w ≠ Ret None w1) →
      tomb (client w') = None ∧ connected (client w') = false ∧
      workers w' = 0).
    { intros pattern out ext Hs Hno. unfold SubscribeExt, bind in Hs.
      destruct (ensureConnected w) as [[e|] w1|] eqn:He; [| |done].
      - injection Hs as _ <-. by apply (Hec e).
      - by destruct (Hno w1). }
    destruct a as [|pattern out|pattern out ext|pattern| |ev];
      simpl in Hstep, Hfail.
    + destruct r as [e|]; [by apply (Hec e)|].
      by destruct (Hfail eq_refl w').
    + by apply (Hsub pattern out nil_value); [|apply Hfail].
    + by apply (Hsub pattern out ext); [|apply Hfail].
    + apply (op_keeps_connection (op_Unsubscribe pattern)) in Hstep
        as (-> & -> & -> & _). done.
    + unfold Close, bind at 1, Killf, bind at 1, get in Hstep.
      by rewrite Ht in Hstep.
    + destruct Hen as [Hpos _]. lia.
Qed.

End Workers.

(** C8: a worker running on a live tomb goes on after every timer turn,
    and a connect request that failed leaves one line in the log and nothing
    else; on a transport that fails every request, any number of timer turns
    leave the worker running with as many lines logged; and in every run
    of the program the worker takes the dying case only after a call of
    Close, so that without one no worker returns. *)
Theorem worker_outlives_failed_connects `{GlobLib} (w : World) (t : Tomb) :
  tomb (client w) = Some t →
  dying t = false →
  0 < workers w →
  (∃ w', perform (do_worker timer_fired) w = Ret None w' ∧
         workers w' = workers w ∧
         ∀ e, failure w (connect_request (clientId (client w))) = Some e →
              logged w' = (logged w ++ [warning e])%list ∧
              client w' = client w) ∧
  (refuses (http (client w)) (posted w) →
   ∀ n, ∃ w', run w (replicate n (do_worker timer_fired)) w' ∧
              workers w' = workers w ∧
              client w' = client w ∧
              length (logged w') = length (logged w) + n) ∧
  (∀ acts w' i,
     run w acts w' →
     acts !! i = Some (do_worker tomb_dying) →
     ∃ j, j < i ∧ acts !! j = Some do_Close) ∧
  (∀ acts w', run w acts w' → do_Close ∉ acts → (workers w ≤ workers w')%nat).
Proof.
  intros Ht Hd Hw.
  assert (Hlive : not_dying w) by (intros t' Ht'; congruence).
  split_and!.
  - destruct (perform_timer w t Ht) as (w' & Hstep & Hw' & _ & Hfail).
    exists w'. split_and!; try done.
    intros e He. by destruct (Hfail e He) as (? & ? & _).
  - intros Href n. by apply (run_failed_connects n w t).
  - intros acts w' i Hrun Hi. by apply (run_returns_after_Close w w' acts i).
  - intros acts w' Hrun Hno. by apply (run_keeps_workers w w' acts).
Qed.

Lemma worker_outlives_failed_connects_witness :
  ∃ w', run stranded_client (replicate 3 (do_worker timer_fired)) w' ∧
        workers w' = 1 ∧
        length (logged w') = 3.
Proof.
  destruct (worker_outlives_failed_connects stranded_client (mkTomb false))
    as (_ & Hfails & _); [reflexivity | reflexivity | vm_compute; lia |].
  destruct (Hfails ltac:(by intros more p) 3) as (w' & Hrun & Hw & _ & Hlog).
  exists w'. split; [exact Hrun|]. split; [exact Hw|exact Hlog].
Defined.

(** C10: a new client has no tomb, and gets one only when
    [ensureConnected] returns nil.  On every world reached before that,
    Close panics on the nil tomb at once, before it sends anything; once
    [ensureConnected] has returned nil the tomb is there and Close gets past
    it. *)
Theorem Close_before_connect_panics `{GlobLib} (w : World) :
  never_connected w →
  tomb (client w) = None ∧
  Close w = Panicked nil_dereference w ∧
  ∀ w', ensureConnected w = Ret None w' →
        tomb (client w') = Some (mkTomb false) ∧
        ∃ w'', Killf w' = Ret tt w''.
Proof.
  intros Hnc. destruct (never_connected_inv w Hnc) as (Ht & Hc & _).
  split; [done|]. split.
  - unfold Close, bind at 1, Killf, bind at 1, get. by rewrite Ht.
  - intros w' He.
    destruct (ensureConnected_cases w w' _ He)
      as [(? & _)|[(_ & e & ? & _)|(_ & _ & w1 & _ & ->)]];
      [congruence|done|].
    split; [done|]. unfold Killf, bind, get. simpl. eauto.
Qed.

Lemma Close_before_connect_panics_witness :
  let w := after Connect (client_of [Post_response 500 (batch [])]) in
  Close w = Panicked nil_dereference w.
Proof.
  apply (Close_before_connect_panics
           (after Connect (client_of [Post_response 500 (batch [])]))).
  apply (not_yet (client_of [Post_response 500 (batch [])]) do_Connect
           (Some (Errorf_HTTP_Status 500))).
  - apply fresh_client.
  - exact I.
  - vm_compute. reflexivity.
  - intros _ w1. vm_compute. discriminate.
Defined.

(** ** What [send] and the operations leave alone *)

Section Frames.
Context `{GlobLib}.

(** Every outcome of [send]: it returns; the session is as before; the
    heap has at most one cell more and the queue only new entries at its
    end; at most the one POST of the request is logged; and a reply comes
    only with a nil error. *)
Lemma send_effect (req : request) (w : World) :
  ∃ rsp err w',
    send req w = Ret (rsp, err) w' ∧
    same_session w w' ∧
    (∃ cells, heap w' = (heap w ++ cells)%list ∧ (length cells ≤ 1)%nat) ∧
    (∃ added, messages (client w') = (messages (client w) ++ added)%list) ∧
    (posted w' = posted w ∧ (∃ why, json_Marshal [req] = inl why) ∨
     posted w' =
       (posted w ++ [(url (client w), "application/json", [req])])%list ∧
     json_Marshal [req] = inr [req]) ∧
    (is_Some err → rsp = None) ∧
    err = failure w req.
Proof.
  destruct (failure w req) as [e|] eqn:Hf.
  - destruct (send_failure w req e Hf) as (w' & Hs & Hh & Hq & Hss & Hp).
    exists None, (Some e), w'. split_and!; try done.
    + exists []. rewrite app_nil_r. split; [done|simpl; lia].
    + exists []. by rewrite app_nil_r.
    + destruct (json_Marshal [req]) as [why|data] eqn:Hm; [left; eauto|].
      right. apply json_Marshal_one in Hm as Hd. by subst data.
  - apply failure_None in Hf as [msgs Hdec].
    destruct (send_decoded w req msgs Hdec) as (w' & Hs & Hh & Hq & Hp & Hss).
    eexists _, None, w'. destruct Hdec as [Hm Ha].
    split_and!; try done; try (by intros [? ?]); by eauto.
Qed.

(** An operation that checks the reply, in terms of what [send] gave. *)
Lemma op_unfold (op : operation) (w : World) (req : request) :
  request_of op w = Some req →
  run_op op w =
    match send req w with
    | Ret (_, Some e) w1 => Ret (Some e) w1
    | Ret (None, None) w1 => Panicked nil_dereference w1
    | Ret (Some l, None) w1 =>
        if Successful (load l w1)
        then Ret None (on_client (on_success op (load l w1)) w1)
        else Ret (Some (errors_New (Error (load l w1)))) w1
    | Panicked p w1 => Panicked p w1
    end.
Proof.
  intros Hreq.
  assert (Hgen : ∀ k : metaMessage → M unit,
    bind (send req) (λ sent, checked sent k) w =
      match send req w with
      | Ret (_, Some e) w1 => Ret (Some e) w1
      | Ret (None, None) w1 => Panicked nil_dereference w1
      | Ret (Some l, None) w1 =>
          if Successful (load l w1)
          then bind (k (load l w1)) (λ _, ret None) w1
          else Ret (Some (errors_New (Error (load l w1)))) w1
      | Panicked p w1 => Panicked p w1
      end).
  { intros k. unfold bind at 1.
    destruct (send req w) as [[[l|] [e|]] w1|]; try done.
    unfold checked, deref, bind, get, ret. by destruct (Successful _). }
  destruct op as [|pattern out ext|pattern|]; simpl in Hreq |- *.
  - injection Hreq as <-. unfold handshake. by rewrite Hgen.
  - unfold subscribe.
    destruct (ohmyglob_Compile pattern) as [g|] eqn:Hc; [|done].
    injection Hreq as <-. unfold bind at 1, get. rewrite Hgen.
    destruct (send _ w) as [[[l|] [e|]] w1|]; try done.
    unfold on_success. rewrite Hc. by destruct (Successful _).
  - injection Hreq as <-. unfold Unsubscribe, bind at 1, get.
    by rewrite Hgen.
  - injection Hreq as <-. unfold disconnect, bind at 1, get. rewrite Hgen.
    destruct (send _ w) as [[[l|] [e|]] w1|]; try done.
    destruct (Successful _); [|done]. unfold bind, ret. by destruct w1 as [[]].
Qed.

Lemma request_of_channel (op : operation) (w : World) (req : request) :
  request_of op w = Some req →
  req_Channel req ∈ meta_channels.
Proof.
  destruct op as [|pattern out ext|pattern|]; simpl.
  - intros [= <-]. set_solver.
  - destruct (ohmyglob_Compile pattern); [|done]. intros [= <-]. set_solver.
  - intros [= <-]. set_solver.
  - intros [= <-]. set_solver.
Qed.

Lemma extends_refl (w : World) : extends w w.
Proof.
  unfold extends. split_and!; try done.
  exists []. by rewrite app_nil_r.
Qed.

Lemma extends_trans (w1 w2 w3 : World) :
  extends w1 w2 → extends w2 w3 → extends w1 w3.
Proof.
  intros (Hu & Hh & Hi & Hheap & (m1 & Hp1 & Hf1) & Hd & Hl & Hdl)
         (Hu' & Hh' & Hi' & Hheap' & (m2 & Hp2 & Hf2) & Hd' & Hl' & Hdl').
  unfold extends. split_and!; try congruence; try (by etrans).
  exists (m1 ++ m2)%list. split.
  - by rewrite Hp2, Hp1, <- app_assoc.
  - apply Forall_app. split; [done|]. by rewrite <- Hu.
Qed.

(** [send] of a request on a meta channel extends the world. *)
Lemma send_extends (req : request) (w w' : World)
    (r : option loc * option error) :
  req_Channel req ∈ meta_channels →
  send req w = Ret r w' →
  extends w w' ∧ same_session w w'.
Proof.
  intros Hch Hsend.
  destruct (send_effect req w)
    as (rsp & err & w1 & Hs & Hss & (cells & Hh & _) & _ & Hp & _).
  rewrite Hs in Hsend. injection Hsend as _ <-.
  split; [|done].
  destruct Hss as (Hu & _ & _ & Hsub & _ & Hhttp & Hi & Hl & Hd & _).
  unfold extends. split_and!; try done.
  - rewrite Hh. by apply prefix_app_r.
  - destruct Hp as [[-> _]|[-> _]].
    + exists []. by rewrite app_nil_r.
    + eexists. split; [done|]. apply Forall_singleton. by exists req.
  - by rewrite Hsub.
  - by rewrite Hl.
  - by rewrite Hd.
Qed.

(** The effect of an accepted operation touches the client id or the
    registry, where it only binds a key. *)
Lemma on_success_extends (op : operation) (m : metaMessage) (w : World) :
  extends w (on_client (on_success op m) w).
Proof.
  unfold extends.
  destruct op as [|pattern out ext|pattern|]; simpl;
    try destruct (ohmyglob_Compile pattern); simpl;
    split_and!; try done; try (exists []; by rewrite app_nil_r);
    apply dom_insert_subseteq.
Qed.

Lemma op_extends (op : operation) (w w' : World) (r : option error) :
  run_op op w = Ret r w' → extends w w'.
Proof.
  intros Hrun. destruct (request_of op w) as [req|] eqn:Hreq.
  2:{ destruct op; simpl in Hreq; try done.
      simpl in Hrun. unfold subscribe in Hrun.
      destruct (ohmyglob_Compile pattern); [done|].
      injection Hrun as _ <-. apply extends_refl. }
  rewrite (op_unfold op w req Hreq) in Hrun.
  destruct (send req w) as [[rsp err] w1|] eqn:Hsend; [|done].
  apply send_extends in Hsend as [Hext _];
    [|by apply (request_of_channel op w)].
  destruct err as [e|].
  { destruct rsp; injection Hrun as _ <-; done. }
  destruct rsp as [l|]; [|done].
  destruct (Successful (load l w1)); injection Hrun as _ <-; [|done].
  eapply extends_trans; [done|]. apply on_success_extends.
Qed.

Lemma ensureConnected_extends (w w' : World) (r : option error) :
  ensureConnected w = Ret r w' → extends w w'.
Proof.
  intros Hrun.
  destruct (ensureConnected_cases w w' r Hrun)
    as [(_ & _ & ->)|[(_ & e & _ & Hh)|(_ & _ & w1 & Hh & ->)]].
  - apply extends_refl.
  - by apply (op_extends op_handshake) in Hh.
  - apply (op_extends op_handshake) in Hh.
    eapply extends_trans; [done|].
    unfold extends. simpl. split_and!; try done.
    exists []. by rewrite app_nil_r.
Qed.

Lemma SubscribeExt_extends (pattern : string) (out : chan_id)
    (ext : any_value) (w w' : World) (r : option error) :
  SubscribeExt pattern out ext w = Ret r w' → extends w w'.
Proof.
  unfold SubscribeExt, bind.
  destruct (ensureConnected w) as [[e|] w1|] eqn:He; [| |done].
  - intros [= <- <-]. by apply ensureConnected_extends in He.
  - intros Hs. apply ensureConnected_extends in He.
    apply (op_extends (op_subscribe pattern out ext)) in Hs.
    by eapply extends_trans.
Qed.

(** What [Close] does before it sends the disconnect request. *)
Lemma Close_cases (w : World) :
  (tomb (client w) = None ∧ Close w = Panicked nil_dereference w) ∨
  (tomb (client w) ≠ None ∧
   Close w =
     disconnect (on_client (with_connected false)
                   (on_client (with_tomb (Some (mkTomb true))) w))).
Proof.
  unfold Close, Killf, bind, get, modify, raise.
  destruct (tomb (client w)) as [t|] eqn:Ht; [right|left; done].
  split; done.
Qed.

Lemma Close_extends (w w' : World) (r : option error) :
  Close w = Ret r w' → extends w w'.
Proof.
  intros Hrun. destruct (Close_cases w) as [[_ Hc]|[_ Hc]];
    rewrite Hc in Hrun; [done|].
  apply (op_extends op_disconnect) in Hrun.
  eapply extends_trans; [|done].
  unfold extends. simpl. split_and!; try done.
  exists []. by rewrite app_nil_r.
Qed.

Lemma worker_turn_extends (ev : event) (w w' : World) (f : flow) :
  worker_turn ev w = Ret f w' → extends w w'.
Proof.
  unfold worker_turn, bind at 1, get.
  destruct (tomb (client w)) as [t|] eqn:Ht; [|done].
  destruct ev as [visit| |].
  - destruct (messages (client w)) as [|msg queue] eqn:Hq.
    + intros [= <- <-]. apply extends_refl.
    + unfold bind at 1, modify. unfold bind at 1. rewrite fan_out_spec.
      intros [= <- <-]. unfold extends. simpl. split_and!; try done.
      * exists []. by rewrite app_nil_r.
      * by apply prefix_app_r.
  - intros [= <- <-]. apply extends_refl.
  - unfold bind at 1, connect, bind at 1, get.
    destruct (send _ w) as [[rsp err] w1|] eqn:Hsend; [|done].
    apply send_extends in Hsend as [Hext _]; [|set_solver].
    destruct err as [e|]; unfold bind, modify, ret; intros [= <- <-];
      [|done].
    eapply extends_trans; [done|].
    unfold extends. simpl. split_and!; try done.
    + exists []. by rewrite app_nil_r.
    + by apply prefix_app_r.
Qed.

Lemma perform_extends (a : action) (w w' : World) (r : option error) :
  perform a w = Ret r w' → extends w w'.
Proof.
  destruct a as [|pattern out|pattern out ext|pattern| |ev]; simpl.
  - apply ensureConnected_extends.
  - apply SubscribeExt_extends.
  - apply SubscribeExt_extends.
  - apply (op_extends (op_Unsubscribe pattern)).
  - apply Close_extends.
  - unfold bind at 1.
    destruct (worker_turn ev w) as [f w1|] eqn:Hturn; [|done].
    apply worker_turn_extends in Hturn.
    destruct f; unfold bind, modify, ret; intros [= <- <-]; [done|].
    eapply extends_trans; [done|].
    unfold extends. simpl. split_and!; try done.
    exists []. by rewrite app_nil_r.
Qed.

Lemma run_extends (w w' : World) (acts : list action) :
  run w acts w' → extends w w'.
Proof.
  induction 1 as [w|w a r w1 acts w2 Hen Hstep Hrun IH].
  - apply extends_refl.
  - apply perform_extends in Hstep. by eapply extends_trans.
Qed.

(** Every action keeps the tomb where a connection or a worker needs it. *)
Lemma perform_tomb_in_place (a : action) (w w' : World) (r : option error) :
  perform a w = Ret r w' → tomb_in_place w → tomb_in_place w'.
Proof.
  intros Hrun [Hc Hw].
  assert (Hec : ∀ w1 r1, ensureConnected w = Ret r1 w1 → tomb_in_place w1).
  { intros w1 r1 He.
    destruct (ensureConnected_cases w w1 r1 He)
      as [(_ & _ & ->)|[(_ & e & _ & Hh)|(_ & _ & w2 & _ & ->)]].
    - done.
    - apply (op_keeps_connection op_handshake) in Hh
        as (Ht & Hcc & Hww & _).
      split; rewrite Ht; [rewrite Hcc|rewrite Hww]; done.
    - split; done. }
  assert (Hsub : ∀ pattern out ext,
    SubscribeExt pattern out ext w = Ret r w' → tomb_in_place w').
  { intros pattern out ext. unfold SubscribeExt, bind.
    destruct (ensureConnected w) as [[e|] w1|] eqn:He; [| |done].
    - intros [= <- <-]. by apply (Hec _ _ eq_refl).
    - intros Hs. destruct (Hec _ _ eq_refl) as [Hc1 Hw1].
      apply (op_keeps_connection (op_subscribe pattern out ext)) in Hs
        as (Ht & Hcc & Hww & _).
      split; rewrite Ht; [rewrite Hcc|rewrite Hww]; done. }
  destruct a as [|pattern out|pattern out ext|pattern| |ev]; simpl in Hrun.
  - by apply (Hec _ _ Hrun).
  - by apply (Hsub pattern out nil_value).
  - by apply (Hsub pattern out ext).
  - apply (op_keeps_connection (op_Unsubscribe pattern)) in Hrun
      as (Ht & Hcc & Hww & _).
    split; rewrite Ht; [rewrite Hcc|rewrite Hww]; done.
  - destruct (Close_cases w) as [[_ Hcl]|[_ Hcl]];
      rewrite Hcl in Hrun; [done|].
    apply (op_keeps_connection op_disconnect) in Hrun as (Ht & _).
    split; rewrite Ht; done.
  - unfold bind at 1 in Hrun.
    destruct (worker_turn ev w) as [f w1|] eqn:Hturn; [|done].
    apply worker_turn_keeps in Hturn as (Ht & Hcc & _ & Hww & _).
    destruct f; unfold bind, modify, ret in Hrun; injection Hrun as _ <-;
      unfold tomb_in_place; simpl; (split; rewrite Ht; [rewrite Hcc; done|]).
    + by rewrite Hww.
    + intros Hpos. apply Hw. lia.
Qed.

Lemma run_tomb_in_place (w w' : World) (acts : list action) :
  run w acts w' → tomb_in_place w → tomb_in_place w'.
Proof.
  induction 1 as [w|w a r w1 acts w2 Hen Hstep Hrun IH]; [done|].
  intros Hinv. apply IH. by apply (perform_tomb_in_place a w w1 r).
Qed.

End Frames.

(** ** More on [send] *)

(** X1: [send] always returns.  It leaves the session (url, client id,
    tomb, registry, connected flag, transport, interval, log, deliveries,
    workers) as it was, changes no heap cell that existed before, only adds
    to the end of the queue, logs no POST when the request cannot be
    marshalled and exactly the one POST of the request otherwise, and gives
    a reply only together with a nil error. *)
Theorem send_touches_little `{GlobLib} (req : request) (w : World) :
  ∃ rsp err w',
    send req w = Ret (rsp, err) w' ∧
    same_session w w' ∧
    (∀ p, (p < length (heap w))%nat → load p w' = load p w) ∧
    messages (client w) `prefix_of` messages (client w') ∧
    (posted w' = posted w ∧ (∃ why, json_Marshal [req] = inl why) ∨
     posted w' =
       (posted w ++ [(url (client w), "application/json", [req])])%list ∧
     json_Marshal [req] = inr [req]) ∧
    (is_Some err → rsp = None).
Proof.
  destruct (send_effect req w)
    as (rsp & err & w' & Hs & Hss & (cells & Hh & _) & (added & Hq) & Hp
        & Hnil & _).
  exists rsp, err, w'. split_and!; try done.
  - intros p Hp'. unfold load. rewrite Hh. by apply lookup_total_app_l.
  - rewrite Hq. by apply prefix_app_r.
Qed.

Lemma send_reply_reads_last_witness :
  ∃ rsp w',
    send (connect_request "") (client_of [ok_batch connect_batch]) =
      Ret (Some rsp, None) w' ∧
    Some (load rsp w') = last connect_batch.
Proof.
  destruct (send_reply_reads_last (client_of [ok_batch connect_batch])
              (connect_request "") connect_batch
              (reply_on "/meta/connect" true ""))
    as (rsp & w' & Hsend & Hload & _);
    [split; reflexivity | set_solver | reflexivity |].
  exists rsp, w'. split; [exact Hsend|exact Hload].
Defined.

Lemma send_single_envelope_witness :
  ∃ w', send (connect_request "")
             (client_of [ok_batch [pushed "/a" "1"]]) = Ret (None, None) w' ∧
        messages (client w') = [0] ∧
        load 0 w' = pushed "/a" "1".
Proof.
  destruct (send_single_envelope (client_of [ok_batch [pushed "/a" "1"]])
              (connect_request "") (pushed "/a" "1"))
    as (w' & _ & Hcase); [split; reflexivity|].
  exists w'. exact Hcase.
Defined.

(** ** More on the checking operations *)

(** X4: handshake, subscribe, Unsubscribe and disconnect hand on the error
    of a [send] that failed (marshalling, transport, status, body): they
    return exactly that error, do not panic, and leave the session, the
    heap and the queue as they were. *)
Theorem operation_returns_send_error `{GlobLib} (op : operation) (w : World)
    (req : request) (e : error) :
  request_of op w = Some req →
  failure w req = Some e →
  ∃ w', run_op op w = Ret (Some e) w' ∧
        same_session w w' ∧
        heap w' = heap w ∧
        messages (client w') = messages (client w).
Proof.
  intros Hreq Hf. rewrite (op_unfold op w req Hreq).
  destruct (send_failure w req e Hf) as (w' & -> & Hh & Hq & Hss & _).
  by exists w'.
Qed.

Lemma operation_returns_send_error_witness :
  ∃ w', handshake (client_of [Post_response 503 (batch [])]) =
          Ret (Some (Errorf_HTTP_Status 503)) w' ∧
        clientId (client w') = "".
Proof.
  destruct (operation_returns_send_error op_handshake
              (client_of [Post_response 503 (batch [])]) handshake_request
              (Errorf_HTTP_Status 503))
    as (w' & Hrun & Hss & _); [reflexivity..|].
  exists w'. split; [exact Hrun|].
  destruct Hss as (_ & Hid & _). exact Hid.
Defined.

(** X5: when the batch decodes and its last envelope is on the request's
    channel with [successful] false, the operation returns an error whose
    text is that envelope's [error] string, and the session is as it was:
    a refused handshake sets no client id, a refused subscribe or
    Unsubscribe leaves the registry alone. *)
Theorem refused_operation_changes_nothing `{GlobLib} (op : operation)
    (w : World) (req : request) (msgs : list metaMessage) (r : metaMessage) :
  request_of op w = Some req →
  decoded w req msgs →
  last msgs = Some r →
  Channel (message r) = req_Channel req →
  Successful r = false →
  ∃ e w', run_op op w = Ret (Some e) w' ∧
          error_text e = Error r ∧
          same_session w w'.
Proof.
  intros Hreq Hdec Hlast Hch Hno.
  destruct (op_decoded op w req msgs Hreq Hdec)
    as (w1 & _ & _ & _ & Hss & Hrun).
  rewrite Hlast in Hrun. simpl in Hrun. rewrite Hno in Hrun.
  assert (Hin : r ∈ on_channel (req_Channel req) msgs).
  { apply list_elem_of_filter. split; [done|].
    apply last_Some in Hlast as [l' ->]. set_solver. }
  destruct (on_channel (req_Channel req) msgs);
    [by apply elem_of_nil in Hin|].
  by exists (errors_New (Error r)), w1.
Qed.

Lemma refused_operation_changes_nothing_witness :
  ∃ e w',
    handshake
      (client_of [ok_batch [reply_on "/meta/handshake" false "403::denied"]])
      = Ret (Some e) w' ∧
    error_text e = "403::denied" ∧
    clientId (client w') = "".
Proof.
  destruct (refused_operation_changes_nothing op_handshake
              (client_of
                 [ok_batch [reply_on "/meta/handshake" false "403::denied"]])
              handshake_request
              [reply_on "/meta/handshake" false "403::denied"]
              (reply_on "/meta/handshake" false "403::denied"))
    as (e & w' & Hrun & Htext & Hss); [reflexivity | split; reflexivity
                                      | reflexivity..|].
  exists e, w'. split; [exact Hrun|]. split; [exact Htext|].
  destruct Hss as (_ & Hid & _). exact Hid.
Defined.

(** X6: when the batch decodes and its last envelope is on the request's
    channel with [successful] true, the operation returns nil after exactly
    one POST of its request, and its only effect on the session is its own:
    handshake stores the envelope's client id, subscribe binds the canonical
    string of the pattern to the subscription, Unsubscribe binds the pattern
    as given to the empty string, disconnect changes nothing. *)
Theorem accepted_operation `{GlobLib} (op : operation) (w : World)
    (req : request) (msgs : list metaMessage) (r : metaMessage) :
  request_of op w = Some req →
  decoded w req msgs →
  last msgs = Some r →
  Channel (message r) = req_Channel req →
  Successful r = true →
  ∃ w1 w',
    run_op op w = Ret None w' ∧
    same_session w w1 ∧
    posted w' =
      (posted w ++ [(url (client w), "application/json", [req])])%list ∧
    w' = on_client (on_success op r) w1 ∧
    match op with
    | op_handshake =>
        clientId (client w') = ClientId (message r) ∧
        subscriptions (client w') = subscriptions (client w)
    | op_subscribe pattern out _ =>
        ∃ g, ohmyglob_Compile pattern = inl g ∧
             req_Subscription req = pattern ∧
             subscriptions (client w') =
               <[Glob_String g := a_subscription (mkSubscription g out)]>
                 (subscriptions (client w)) ∧
             clientId (client w') = clientId (client w)
    | op_Unsubscribe pattern =>
        subscriptions (client w') =
          <[pattern := a_string ""]> (subscriptions (client w)) ∧
        clientId (client w') = clientId (client w)
    | op_disconnect =>
        subscriptions (client w') = subscriptions (client w) ∧
        clientId (client w') = clientId (client w)
    end.
Proof.
  intros Hreq Hdec Hlast Hch Hok.
  destruct (op_decoded op w req msgs Hreq Hdec)
    as (w1 & _ & _ & Hp & Hss & Hrun).
  rewrite Hlast in Hrun. simpl in Hrun. rewrite Hok in Hrun.
  assert (Hin : r ∈ on_channel (req_Channel req) msgs).
  { apply list_elem_of_filter. split; [done|].
    apply last_Some in Hlast as [l' ->]. set_solver. }
  destruct (on_channel (req_Channel req) msgs);
    [by apply elem_of_nil in Hin|].
  exists w1, (on_client (on_success op r) w1).
  pose proof Hss as (_ & Hid & _ & Hsub & _).
  split_and!; try done.
  destruct op as [|pattern out ext|pattern|]; simpl in Hreq |- *.
  - by rewrite Hsub.
  - destruct (ohmyglob_Compile pattern) as [g|] eqn:Hc; [|done].
    injection Hreq as <-. exists g. simpl. by rewrite Hsub, Hid.
  - by rewrite Hsub, Hid.
  - by rewrite Hsub, Hid.
Qed.

Lemma accepted_operation_witness :
  ∃ w',
    handshake
      (client_of [ok_batch [mkMeta (mkMessage "/meta/handshake" "" ""
                                      "abc123" nil_value)
                              "1.0" "" ["long-polling"] "" "" true "" ""
                              None]]) = Ret None w' ∧
    clientId (client w') = "abc123".
Proof.
  destruct (accepted_operation op_handshake
              (client_of [ok_batch [mkMeta (mkMessage "/meta/handshake" "" ""
                                              "abc123" nil_value)
                                      "1.0" "" ["long-polling"] "" "" true ""
                                      "" None]])
              handshake_request
              [mkMeta (mkMessage "/meta/handshake" "" "" "abc123" nil_value)
                 "1.0" "" ["long-polling"] "" "" true "" "" None]
              (mkMeta (mkMessage "/meta/handshake" "" "" "abc123" nil_value)
                 "1.0" "" ["long-polling"] "" "" true "" "" None))
    as (w1 & w' & Hrun & _ & _ & _ & Hid & _);
    [reflexivity | split; reflexivity | reflexivity..|].
  exists w'. split; [exact Hrun|exact Hid].
Defined.

(** ** More on connecting and closing *)

(** X7: on a client that is not connected, when the server accepts the
    handshake (the batch decodes, its last envelope is on [/meta/handshake]
    with [successful] true), [ensureConnected] returns nil after exactly one
    POST, the handshake request; the client is then connected under the
    client id of that envelope, has a tomb that is not dying and one worker
    more, and its registry is untouched. *)
Theorem Connect_accepted `{GlobLib} (w : World) (msgs : list metaMessage)
    (r : metaMessage) :
  connected (client w) = false →
  decoded w handshake_request msgs →
  last msgs = Some r →
  Channel (message r) = "/meta/handshake" →
  Successful r = true →
  ∃ w', ensureConnected w = Ret None w' ∧
        connected (client w') = true ∧
        clientId (client w') = ClientId (message r) ∧
        tomb (client w') = Some (mkTomb false) ∧
        workers w' = S (workers w) ∧
        subscriptions (client w') = subscriptions (client w) ∧
        posted w' =
          (posted w ++
           [(url (client w), "application/json", [handshake_request])])%list.
Proof.
  intros Hc Hdec Hlast Hch Hok.
  destruct (op_decoded op_handshake w handshake_request msgs eq_refl Hdec)
    as (w1 & _ & _ & Hp & Hss & Hrun).
  rewrite Hlast in Hrun. simpl in Hrun. rewrite Hok in Hrun.
  assert (Hin : r ∈ on_channel "/meta/handshake" msgs).
  { apply list_elem_of_filter. split; [done|].
    apply last_Some in Hlast as [l' ->]. set_solver. }
  destruct (on_channel "/meta/handshake" msgs) eqn:Hon;
    [by apply elem_of_nil in Hin|].
  unfold ensureConnected, bind at 1, get. rewrite Hc.
  unfold bind at 1, get. rewrite Hc. unfold bind at 1. rewrite Hrun.
  eexists. split; [reflexivity|].
  destruct Hss as (_ & _ & _ & Hsub & _ & _ & _ & _ & _ & Hw).
  simpl. split_and!; try done. by rewrite Hw.
Qed.

Lemma Connect_accepted_witness :
  ∃ w', Connect (client_of [ok_batch [reply_on "/meta/handshake" true ""]]) =
          Ret None w' ∧
        connected (client w') = true ∧
        workers w' = 1.
Proof.
  destruct (Connect_accepted
              (client_of [ok_batch [reply_on "/meta/handshake" true ""]])
              [reply_on "/meta/handshake" true ""]
              (reply_on "/meta/handshake" true ""))
    as (w' & Hrun & Hc & _ & _ & Hw & _);
    [reflexivity | split; reflexivity | reflexivity..|].
  exists w'. split; [exact Hrun|]. split; [exact Hc|exact Hw].
Defined.

(** X8: once [ensureConnected] has returned nil, calling it again returns
    nil and changes nothing: no second handshake is sent, no second worker
    is started. *)
Theorem ensureConnected_idempotent `{GlobLib} (w w' : World) :
  ensureConnected w = Ret None w' →
  connected (client w') = true ∧
  ensureConnected w' = Ret None w' ∧
  Connect w' = Ret None w'.
Proof.
  intros Hrun.
  assert (Hc : connected (client w') = true).
  { destruct (ensureConnected_cases w w' None Hrun)
      as [(Hc & _ & ->)|[(_ & e & ? & _)|(_ & _ & w1 & _ & ->)]]; done. }
  split; [done|].
  assert (ensureConnected w' = Ret None w') as He
    by (unfold ensureConnected, bind, get; by rewrite Hc).
  done.
Qed.

Lemma ensureConnected_idempotent_witness :
  ensureConnected stranded_client = Ret None stranded_client.
Proof.
  apply (ensureConnected_idempotent
           (client_of [ok_batch [reply_on "/meta/handshake" true ""]])
           stranded_client).
  vm_compute. reflexivity.
Defined.

(** An operation that returns an error leaves the session as it was. *)
Lemma op_error_same_session `{GlobLib} (op : operation) (w w' : World)
    (e : error) :
  run_op op w = Ret (Some e) w' → same_session w w'.
Proof.
  intros Hrun. destruct (request_of op w) as [req|] eqn:Hreq.
  2:{ destruct op; simpl in Hreq; try done.
      simpl in Hrun. unfold subscribe in Hrun.
      destruct (ohmyglob_Compile pattern); [done|].
      injection Hrun as _ <-. by repeat split. }
  rewrite (op_unfold op w req Hreq) in Hrun.
  destruct (send_effect req w) as (rsp & err & w1 & Hs & Hss & _).
  rewrite Hs in Hrun.
  destruct err as [e'|].
  { destruct rsp; injection Hrun as _ <-; done. }
  destruct rsp as [l|]; [|done].
  destruct (Successful (load l w1)); [done|]. by injection Hrun as _ <-.
Qed.

(** X9: when the handshake fails, for whatever reason, [ensureConnected]
    returns the handshake's error and the client stays as it was: not
    connected, same client id, tomb, registry and workers.  Nothing is
    remembered of the attempt, so the next call tries again. *)
Theorem ensureConnected_failure `{GlobLib} (w w' : World) (e : error) :
  connected (client w) = false →
  ensureConnected w = Ret (Some e) w' →
  handshake w = Ret (Some e) w' ∧
  same_session w w'.
Proof.
  intros Hc Hrun.
  destruct (ensureConnected_cases w w' _ Hrun)
    as [(_ & ? & _)|[(_ & e' & [= <-] & Hh)|(_ & ? & _)]]; [done| |done].
  split; [done|]. by apply (op_error_same_session op_handshake w w' e).
Qed.

Lemma ensureConnected_failure_witness :
  let w := client_of [Post_response 500 (batch [])] in
  connected (client (after ensureConnected w)) = false ∧
  workers (after ensureConnected w) = 0.
Proof.
  intros w.
  destruct (ensureConnected_failure w (after ensureConnected w)
              (Errorf_HTTP_Status 500))
    as (_ & Hss); [reflexivity | vm_compute; reflexivity |].
  destruct Hss as (_ & _ & _ & _ & Hc & _ & _ & _ & _ & Hw).
  split; [exact Hc|exact Hw].
Defined.

(** X10: [SubscribeExt] connects before it looks at the pattern.  When
    [ensureConnected] fails, its error is returned and no subscribe request
    is made; when it returns nil and the pattern does not compile, the
    caller gets [Invalid pattern] but the handshake has been sent and the
    client is left connected, with its worker running. *)
Theorem SubscribeExt_connects_first `{GlobLib} (w w1 : World)
    (pattern : string) (out : chan_id) (ext : any_value) :
  (∀ e, ensureConnected w = Ret (Some e) w1 →
        SubscribeExt pattern out ext w = Ret (Some e) w1) ∧
  (∀ err, ohmyglob_Compile pattern = inr err →
          ensureConnected w = Ret None w1 →
          SubscribeExt pattern out ext w =
            Ret (Some (Errorf_Invalid_pattern err)) w1 ∧
          connected (client w1) = true ∧
          (connected (client w) = false →
           workers w1 = S (workers w) ∧
           posted w1 =
             (posted w ++
              [(url (client w), "application/json",
                [handshake_request])])%list)).
Proof.
  split.
  - intros e He. unfold SubscribeExt, bind. by rewrite He.
  - intros err Hc He. split.
    + unfold SubscribeExt, bind. rewrite He. unfold subscribe.
      by rewrite Hc.
    + destruct (ensureConnected_cases w w1 None He)
        as [(Hcon & _ & ->)|[(_ & e & ? & _)|(Hcon & _ & w0 & Hh & ->)]];
        [|done|].
      * split; [done|]. intros ?. congruence.
      * split; [done|]. intros _.
        destruct (op_returns_nil op_handshake w w0 Hh)
          as (req & msgs & r & w2 & [= <-] & Hdec & _ & _ & _ & _ & ->).
        destruct (op_decoded op_handshake w handshake_request msgs eq_refl
                    Hdec) as (w3 & _ & _ & Hp & Hss & Hrun).
        cbn [run_op] in Hrun. rewrite Hh in Hrun.
        destruct (on_channel _ msgs); [done|]. simpl in Hrun.
        destruct (Successful _); [|done].
        pose proof (f_equal (λ x : result (option error),
                      match x with Ret _ y | Panicked _ y => y end) Hrun)
          as Hw.
        pose proof (f_equal workers Hw) as Hwk2.
        pose proof (f_equal posted Hw) as Hp2. simpl in Hwk2, Hp2.
        destruct Hss as (_ & _ & _ & _ & _ & _ & _ & _ & _ & Hwk).
        simpl. split; congruence.
Qed.

Lemma SubscribeExt_connects_first_witness :
  let w := client_of [ok_batch [reply_on "/meta/handshake" true ""]] in
  SubscribeExt "/foo/[ab" 7 nil_value w =
    Ret (Some (Errorf_Invalid_pattern "unbalanced [")) stranded_client ∧
  connected (client stranded_client) = true.
Proof.
  intros w.
  destruct (SubscribeExt_connects_first w stranded_client "/foo/[ab" 7
              nil_value) as [_ Hbad].
  destruct (Hbad "unbalanced [") as (Hrun & Hc & _);
    [vm_compute; reflexivity | vm_compute; reflexivity |].
  split; [exact Hrun|exact Hc].
Defined.

(** X11: on a client that has a tomb, [Close] kills the tomb, marks the
    client not connected and POSTs exactly one disconnect request under the
    client id, all of this whatever the outcome of the disconnect: an error
    or a panic in it takes nothing back.  The dying case of the worker is
    then ready, and a worker that takes it returns nil. *)
Theorem Close_kills_the_tomb `{GlobLib} (w : World) :
  tomb (client w) ≠ None →
  tomb (client (after Close w)) = Some (mkTomb true) ∧
  connected (client (after Close w)) = false ∧
  posted (after Close w) =
    (posted w ++
     [(url (client w), "application/json",
       [disconnect_request (clientId (client w))])])%list ∧
  workers (after Close w) = workers w ∧
  ready tomb_dying (after Close w) ∧
  ((0 < workers w)%nat →
   ∃ w', perform (do_worker tomb_dying) (after Close w) = Ret None w' ∧
         workers w' = pred (workers w)).
Proof.
  intros Ht. destruct (Close_cases w) as [[Hn _]|[_ Hcl]]; [done|].
  set (w0 := on_client (with_connected false)
               (on_client (with_tomb (Some (mkTomb true))) w)) in Hcl.
  set (req := disconnect_request (clientId (client w))).
  assert (Hreq : request_of op_disconnect w0 = Some req) by done.
  destruct (send_effect req w0)
    as (rsp & err & w1 & Hs & Hss & _ & _ & Hp & _).
  assert (Hafter : ∃ w', after Close w = w' ∧ same_session w1 w' ∧
                         posted w' = posted w1).
  { unfold after. rewrite Hcl. change (disconnect w0) with (run_op op_disconnect w0).
    rewrite (op_unfold op_disconnect w0 req Hreq), Hs.
    destruct err as [e|].
    { destruct rsp; exists w1; by repeat split. }
    destruct rsp as [l|]; [|exists w1; by repeat split].
    destruct (Successful (load l w1)); eexists; (split; [reflexivity|]);
      by repeat split. }
  destruct Hafter as (w' & -> & Hss' & Hp').
  destruct Hss as (Hu & Hid & Htomb & _ & Hc & _ & _ & _ & _ & Hw).
  destruct Hss' as (_ & _ & Htomb' & _ & Hc' & _ & _ & _ & _ & Hw').
  assert (Htd : tomb (client w') = Some (mkTomb true))
    by (by rewrite Htomb', Htomb).
  split_and!.
  - done.
  - by rewrite Hc', Hc.
  - rewrite Hp'. destruct Hp as [[_ [why Hm]]|[-> _]]; [done|done].
  - by rewrite Hw', Hw.
  - exists (mkTomb true). done.
  - intros Hpos. simpl. unfold bind at 1, worker_turn, bind at 1, get.
    rewrite Htd. eexists. split; [reflexivity|]. simpl.
    by rewrite Hw', Hw.
Qed.

Lemma Close_kills_the_tomb_witness :
  tomb (client (after Close stranded_client)) = Some (mkTomb true) ∧
  connected (client (after Close stranded_client)) = false.
Proof.
  destruct (Close_kills_the_tomb stranded_client) as (Ht & Hc & _);
    [vm_compute; discriminate|].
  split; [exact Ht|exact Hc].
Defined.

(** ** What holds of every run *)

Section Runs.
Context `{GlobLib}.

(** With a tomb in place a turn of the worker returns, whatever case it
    takes. *)
Lemma worker_turn_returns (ev : event) (w : World) (t : Tomb) :
  tomb (client w) = Some t →
  ∃ f w', worker_turn ev w = Ret f w'.
Proof.
  intros Ht. destruct ev as [visit| |].
  - unfold worker_turn, bind at 1, get. rewrite Ht.
    destruct (messages (client w)) as [|msg queue]; [by eexists _, _|].
    unfold bind at 1, modify. unfold bind at 1. rewrite fan_out_spec.
    by eexists _, _.
  - unfold worker_turn, bind at 1, get. rewrite Ht. by eexists _, _.
  - destruct (worker_turn_timer w t Ht) as (w' & Hrun & _). eauto.
Qed.

Lemma start_tomb_in_place (dflt : HttpClient) (url : string)
    (h : option HttpClient) :
  tomb_in_place (start (NewClient dflt url h)).
Proof. split; simpl; [done|lia]. Qed.

Lemma session_run : run (client_of session_script) session_actions session_end.
Proof.
  unfold session_actions, session_end.
  eapply (run_step _ _ None); [exact I | vm_compute; reflexivity |].
  eapply (run_step _ _ None); [exact I | vm_compute; reflexivity |].
  eapply (run_step _ _ None);
    [split; [vm_compute; lia|exact I] | vm_compute; reflexivity |].
  apply run_done.
Qed.

End Runs.

(** X12: in every world a program reaches from a new client, a connected
    client has a tomb and so has a client with a running worker.  Hence a
    turn of the worker never panics, whatever case it takes and whatever
    the server answers, and [Close] on a connected client gets past the
    tomb. *)
Theorem worker_never_panics `{GlobLib} (dflt : HttpClient) (url : string)
    (h : option HttpClient) (acts : list action) (w : World) :
  run (start (NewClient dflt url h)) acts w →
  tomb_in_place w ∧
  ((0 < workers w)%nat → ∀ ev, ∃ f w', worker_turn ev w = Ret f w') ∧
  (connected (client w) = true → ∃ w', Killf w = Ret tt w').
Proof.
  intros Hrun.
  pose proof (run_tomb_in_place _ _ _ Hrun (start_tomb_in_place dflt url h))
    as [Hc Hw].
  split; [done|]. split.
  - intros Hpos ev. destruct (tomb (client w)) as [t|] eqn:Ht;
      [|by destruct (Hw Hpos)].
    by apply (worker_turn_returns ev w t).
  - intros Hcon. unfold Killf, bind, get.
    destruct (tomb (client w)) as [t|] eqn:Ht; [|by destruct (Hc Hcon)].
    eauto.
Qed.

Lemma worker_never_panics_witness :
  ∃ f w', worker_turn timer_fired session_end = Ret f w'.
Proof.
  destruct (worker_never_panics agreeable "http://server/cometd"
              (Some (scripted session_script)) session_actions session_end
              session_run) as (_ & Hturn & _).
  apply Hturn. vm_compute. lia.
Defined.

(** X13: nothing a program does changes the url, the transport or the poll
    interval of its client: they are those of [NewClient], and the interval
    is zero for good, whatever the server advises. *)
Theorem configuration_never_changes `{GlobLib} (dflt : HttpClient)
    (url0 : string) (h : option HttpClient) (acts : list action)
    (w : World) :
  run (start (NewClient dflt url0 h)) acts w →
  url (client w) = url0 ∧
  http (client w) = default dflt h ∧
  interval (client w) = 0%Z.
Proof.
  intros Hrun. apply run_extends in Hrun as (Hu & Hh & Hi & _).
  rewrite Hu, Hh, Hi. by destruct h.
Qed.

Lemma configuration_never_changes_witness :
  url (client session_end) = "http://server/cometd" ∧
  interval (client session_end) = 0%Z.
Proof.
  destruct (configuration_never_changes agreeable "http://server/cometd"
              (Some (scripted session_script)) session_actions session_end
              session_run) as (Hu & _ & Hi).
  split; [exact Hu|exact Hi].
Defined.

(** X14: every POST a program makes goes to the url of its client, with
    content type [application/json], and carries a batch of exactly one
    request, on one of the five meta channels. *)
Theorem posts_are_client_posts `{GlobLib} (w w' : World)
    (acts : list action) :
  run w acts w' →
  ∃ more, posted w' = (posted w ++ more)%list ∧
          Forall (client_post (url (client w))) more.
Proof.
  intros Hrun. by apply run_extends in Hrun as (_ & _ & _ & _ & Hp & _).
Qed.

Lemma posts_are_client_posts_witness :
  Forall (client_post "http://server/cometd") (posted session_end).
Proof.
  destruct (posts_are_client_posts (client_of session_script) session_end
              session_actions session_run) as (more & Hp & Hall).
  rewrite Hp. exact Hall.
Defined.

(** X15: no operation deletes a key of the registry: a pattern that was
    once bound, to a subscription or to the empty string, stays bound in
    every later world. *)
Theorem registry_keys_stay `{GlobLib} (w w' : World) (acts : list action)
    (key : string) :
  run w acts w' →
  is_Some (subscriptions (client w) !! key) →
  is_Some (subscriptions (client w') !! key).
Proof.
  intros Hrun Hkey.
  apply run_extends in Hrun as (_ & _ & _ & _ & _ & Hdom & _).
  apply elem_of_dom. apply Hdom. by apply elem_of_dom.
Qed.

Lemma registry_keys_stay_witness :
  is_Some (subscriptions (client session_end) !! "/foo/*").
Proof.
  apply (registry_keys_stay
           (after (perform (do_Subscribe " /foo/*" 7))
              (client_of session_script))
           session_end
           [do_Unsubscribe " /foo/*"; do_worker timer_fired] "/foo/*").
  - eapply (run_step _ _ None); [exact I | vm_compute; reflexivity |].
    eapply (run_step _ _ None);
      [split; [vm_compute; lia|exact I] | vm_compute; reflexivity |].
    apply run_done.
  - vm_compute. eauto.
Defined.

(** X16: between operations no message is rewritten and nothing is taken
    back: a heap cell that exists reads the same in every later world, and
    the log and the deliveries only grow at their end. *)
Theorem messages_never_rewritten `{GlobLib} (w w' : World)
    (acts : list action) :
  run w acts w' →
  (∀ p, (p < length (heap w))%nat → load p w' = load p w) ∧
  logged w `prefix_of` logged w' ∧
  delivered w `prefix_of` delivered w'.
Proof.
  intros Hrun.
  apply run_extends in Hrun as (_ & _ & _ & [k Hh] & _ & _ & Hl & Hd).
  split; [|done]. intros p Hp. unfold load. rewrite Hh.
  by apply lookup_total_app_l.
Qed.

Lemma messages_never_rewritten_witness :
  let w1 := after (perform (do_Subscribe " /foo/*" 7))
                  (client_of session_script) in
  load 0 session_end = load 0 w1.
Proof.
  intros w1.
  destruct (messages_never_rewritten w1 session_end
              [do_Unsubscribe " /foo/*"; do_worker timer_fired])
    as [Hload _].
  - eapply (run_step _ _ None); [exact I | vm_compute; reflexivity |].
    eapply (run_step _ _ None);
      [split; [vm_compute; lia|exact I] | vm_compute; reflexivity |].
    apply run_done.
  - apply Hload. vm_compute. lia.
Defined.

(** ** More on the registry and the poll *)

Lemma Unsubscribe_unroutes_witness :
  let w := after (Unsubscribe "/foo/*")
             (subscribed_client
                [ok_batch [reply_on "/meta/unsubscribe" true ""]]) in
  subscriptions (client w) !! "/foo/*" = Some (a_string "") ∧
  routes (map_to_list (subscriptions (client w))) = [].
Proof.
  intros w.
  destruct (Unsubscribe_unroutes
              (subscribed_client
                 [ok_batch [reply_on "/meta/unsubscribe" true ""]])
              w "/foo/*") as [Hlook Hroutes]; [vm_compute; reflexivity|].
  split; [exact Hlook|].
  apply Permutation_nil_r. rewrite Hroutes. vm_compute. reflexivity.
Defined.

(** X18: Unsubscribe does not look whether the pattern is subscribed.  For
    a pattern the registry does not hold, an accepted Unsubscribe adds an
    entry, the empty string under that pattern, so the registry grows by
    one while it routes as before. *)
Theorem Unsubscribe_unknown_pattern `{GlobLib} (w w' : World)
    (pattern : string) :
  subscriptions (client w) !! pattern = None →
  Unsubscribe pattern w = Ret None w' →
  subscriptions (client w') !! pattern = Some (a_string "") ∧
  size (subscriptions (client w')) = S (size (subscriptions (client w))) ∧
  routes (map_to_list (subscriptions (client w'))) ≡ₚ
    routes (map_to_list (subscriptions (client w))).
Proof.
  intros Hnone Hrun. apply Unsubscribe_forgets in Hrun. rewrite Hrun.
  split_and!.
  - apply lookup_insert_eq.
  - by apply map_size_insert_None.
  - rewrite routes_insert. simpl. by rewrite delete_id.
Qed.

Lemma Unsubscribe_unknown_pattern_witness :
  let w := client_of [ok_batch [reply_on "/meta/unsubscribe" true ""]] in
  size (subscriptions (client (after (Unsubscribe "/never" ) w))) = 1.
Proof.
  intros w.
  destruct (Unsubscribe_unknown_pattern w (after (Unsubscribe "/never") w)
              "/never") as (_ & Hsize & _);
    [reflexivity | vm_compute; reflexivity |].
  rewrite Hsize. reflexivity.
Defined.

(** X19: a poll of the worker whose response decodes logs nothing and
    never reads the reply: with or without an envelope on [/meta/connect]
    in the batch, the turn goes on without a panic.  It POSTs one connect
    request under the client id, puts one entry on the queue for every
    envelope off [/meta/connect], and leaves registry and deliveries
    alone. *)
Theorem poll_queues_pushes `{GlobLib} (w : World) (t : Tomb)
    (msgs : list metaMessage) :
  tomb (client w) = Some t →
  decoded w (connect_request (clientId (client w))) msgs →
  ∃ w', worker_turn timer_fired w = Ret continue w' ∧
        logged w' = logged w ∧
        messages (client w') =
          (messages (client w) ++
           replicate (length (off_channel "/meta/connect" msgs))
                     (length (heap w)))%list ∧
        posted w' =
          (posted w ++
           [(url (client w), "application/json",
             [connect_request (clientId (client w))])])%list ∧
        subscriptions (client w') = subscriptions (client w) ∧
        delivered w' = delivered w.
Proof.
  intros Ht Hdec.
  destruct (send_decoded w _ msgs Hdec) as (w' & Hs & _ & Hq & Hp & Hss).
  exists w'. unfold worker_turn, bind at 1, get. rewrite Ht.
  unfold bind at 1, connect, bind at 1, get. rewrite Hs.
  destruct Hss as (_ & _ & _ & Hsub & _ & _ & _ & Hl & Hd & _).
  by split_and!.
Qed.

Lemma poll_queues_pushes_witness :
  ∃ w', worker_turn timer_fired
          (after Connect
             (client_of [ok_batch [reply_on "/meta/handshake" true ""];
                         ok_batch [pushed "/a" "1"]])) = Ret continue w' ∧
        messages (client w') = [1] ∧
        logged w' = [].
Proof.
  destruct (poll_queues_pushes
              (after Connect
                 (client_of [ok_batch [reply_on "/meta/handshake" true ""];
                             ok_batch [pushed "/a" "1"]]))
              (mkTomb false) [pushed "/a" "1"])
    as (w' & Hrun & Hl & Hq & _); [reflexivity | split; reflexivity |].
  exists w'. split; [exact Hrun|]. split; [exact Hq|exact Hl].
Defined.

(** ** From the facade to the subscriber *)

(** X20: [Subscribe] is [SubscribeExt] without extension, after the
    connection is made: once [ensureConnected] has returned nil, a pattern
    that compiles and a subscribe request that the server accepts give nil;
    the request carries the client's id, the pattern as given and no
    extension, the subscription is bound under the canonical string of the
    pattern, and the client is connected. *)
Theorem Subscribe_accepted `{GlobLib} (w w1 : World) (pattern : string)
    (out : chan_id) (g : Glob) (msgs : list metaMessage) (r : metaMessage) :
  ensureConnected w = Ret None w1 →
  ohmyglob_Compile pattern = inl g →
  decoded w1 (subscribe_request (clientId (client w1)) pattern nil_value)
          msgs →
  last msgs = Some r →
  Channel (message r) = "/meta/subscribe" →
  Successful r = true →
  ∃ w2, Subscribe pattern out w = Ret None w2 ∧
        subscriptions (client w2) =
          <[Glob_String g := a_subscription (mkSubscription g out)]>
            (subscriptions (client w1)) ∧
        connected (client w2) = true ∧
        posted w2 =
          (posted w1 ++
           [(url (client w1), "application/json",
             [subscribe_request (clientId (client w1)) pattern
                                nil_value])])%list.
Proof.
  intros He Hc Hdec Hlast Hch Hok.
  assert (Hcon : connected (client w1) = true).
  { destruct (ensureConnected_cases w w1 None He)
      as [(? & _ & ->)|[(_ & e & ? & _)|(_ & _ & w0 & _ & ->)]]; done. }
  assert (Hreq : request_of (op_subscribe pattern out nil_value) w1 =
                 Some (subscribe_request (clientId (client w1)) pattern
                                         nil_value))
    by (simpl; by rewrite Hc).
  destruct (op_decoded _ w1 _ msgs Hreq Hdec)
    as (w2 & _ & _ & Hp & Hss & Hrun).
  rewrite Hlast in Hrun. simpl in Hrun. rewrite Hok in Hrun.
  assert (Hin : r ∈ on_channel "/meta/subscribe" msgs).
  { apply list_elem_of_filter. split; [done|].
    apply last_Some in Hlast as [l' ->]. set_solver. }
  destruct (on_channel "/meta/subscribe" msgs);
    [by apply elem_of_nil in Hin|].
  unfold Subscribe, SubscribeExt, bind. rewrite He, Hrun.
  eexists. split; [reflexivity|].
  destruct Hss as (_ & _ & _ & Hsub & Hcc & _).
  unfold on_success. rewrite Hc. simpl. rewrite Hsub, Hcc. done.
Qed.

Lemma Subscribe_accepted_witness :
  let w := client_of [ok_batch [reply_on "/meta/handshake" true ""];
                      ok_batch [reply_on "/meta/subscribe" true ""]] in
  ∃ w2, Subscribe "/foo/*" 7 w = Ret None w2 ∧
        subscriptions (client w2) !! "/foo/*" =
          Some (a_subscription (mkSubscription foo_star 7)).
Proof.
  intros w.
  destruct (Subscribe_accepted w (after ensureConnected w) "/foo/*" 7
              foo_star [reply_on "/meta/subscribe" true ""]
              (reply_on "/meta/subscribe" true ""))
    as (w2 & Hrun & Hsub & _);
    [vm_compute; reflexivity | vm_compute; reflexivity
    | split; vm_compute; reflexivity | reflexivity..|].
  exists w2. split; [exact Hrun|]. rewrite Hsub. apply lookup_insert_eq.
Defined.

(** X21: a poll followed by the turn that takes its message.  When the
    queue is empty and the response of the poll decodes to a batch that has
    exactly one envelope off [/meta/connect] and ends with it, the worker
    delivers one message, which reads as that envelope, once to the output
    channel of every subscription whose matcher takes the envelope's
    channel, and the queue is empty again. *)
Theorem pushed_message_is_delivered `{GlobLib} (w : World) (t : Tomb)
    (msgs : list metaMessage) (m : metaMessage)
    (visit : list (string * entry)) :
  tomb (client w) = Some t →
  messages (client w) = [] →
  decoded w (connect_request (clientId (client w))) msgs →
  off_channel "/meta/connect" msgs = [m] →
  last msgs = Some m →
  visit ≡ₚ map_to_list (subscriptions (client w)) →
  ∃ w1 w2,
    worker_turn timer_fired w = Ret continue w1 ∧
    worker_turn (message_ready visit) w1 = Ret continue w2 ∧
    messages (client w2) = [] ∧
    load (length (heap w)) w2 = m ∧
    delivered w2 =
      (delivered w ++
       map (λ s, (out s, length (heap w)))
           (matching (Channel (message m)) visit))%list ∧
    ∀ d, (d, length (heap w)) ∈
           map (λ s, (out s, length (heap w)))
               (matching (Channel (message m)) visit) ↔
         ∃ key s, subscriptions (client w) !! key = Some (a_subscription s) ∧
                  out s = d ∧
                  Glob_MatchString (glob s) (Channel (message m)) = true.
Proof.
  intros Ht Hq Hdec Hoff Hlast Hv.
  destruct (send_decoded w _ msgs Hdec) as (w1 & Hs & Hh & Hq1 & _ & Hss).
  pose proof (load_loop_variable w w1 msgs Hh) as Hload.
  rewrite Hlast in Hload. simpl in Hload, Hq1.
  rewrite Hoff, Hq in Hq1. simpl in Hq1.
  destruct Hss as (_ & _ & Htomb & Hsub & _ & _ & _ & _ & Hd & _).
  assert (Hturn1 : worker_turn timer_fired w = Ret continue w1).
  { unfold worker_turn, bind at 1, get. rewrite Ht.
    unfold bind at 1, connect, bind at 1, get. by rewrite Hs. }
  eexists w1, _. split; [done|]. split.
  - unfold worker_turn, bind at 1, get. rewrite Htomb, Ht, Hq1.
    unfold bind at 1, modify. unfold bind at 1. rewrite fan_out_spec.
    reflexivity.
  - unfold load in *. simpl. rewrite Hload, Hd. split_and!; try done.
    intros d. rewrite list_elem_of_fmap. split.
    + intros (s & [= ->] & Hin).
      apply (elem_of_matching _ _ visit s Hv) in Hin as (key & Hk & Hm).
      eauto.
    + intros (key & s & Hk & <- & Hm). exists s. split; [done|].
      apply (elem_of_matching _ _ visit s Hv). eauto.
Qed.

Lemma pushed_message_is_delivered_witness :
  let w := after (Subscribe "/chat/**" 8)
             (after (Subscribe "/foo/*" 7)
                (client_of
                   [ok_batch [reply_on "/meta/handshake" true ""];
                    ok_batch [reply_on "/meta/subscribe" true ""];
                    ok_batch [reply_on "/meta/subscribe" true ""];
                    ok_batch [reply_on "/meta/connect" true "";
                              pushed "/foo/bar" "hi"]])) in
  ∃ w1 w2,
    worker_turn timer_fired w = Ret continue w1 ∧
    worker_turn (message_ready (map_to_list (subscriptions (client w)))) w1 =
      Ret continue w2 ∧
    load 3 w2 = pushed "/foo/bar" "hi" ∧
    delivered w2 = [(7, 3)].
Proof.
  intros w.
  destruct (pushed_message_is_delivered w (mkTomb false)
              [reply_on "/meta/connect" true ""; pushed "/foo/bar" "hi"]
              (pushed "/foo/bar" "hi")
              (map_to_list (subscriptions (client w))))
    as (w1 & w2 & Ht1 & Ht2 & _ & Hload & Hd & _);
    [reflexivity | reflexivity | split; reflexivity | reflexivity
    | reflexivity | reflexivity |].
  exists w1, w2. split; [exact Ht1|]. split; [exact Ht2|].
  split; [exact Hload|]. rewrite Hd. vm_compute. reflexivity.
Defined.
